(** * sawtooth_sdk.client.stream: the validator connection of the Python SDK

    A shallow embedding of [sdk/python/sawtooth_sdk/client/stream.py]:
    the [Stream] facade used by caller threads and the background
    [_SendReceiveThread] that owns the ZMQ socket and the asyncio event
    loop.

    The program is concurrent, so it is embedded as a transition system.
    A [State] holds the fields of the two objects, the registry of futures
    they share, and what the environment can see (the frames written to a
    socket, the items handed to [receive] callers).  An [Event] is one
    atomic segment of one thread of control: a stretch of a caller thread
    between two reads or writes of shared fields, a stretch of
    [_SendReceiveThread.run], or one resumption of a coroutine of the event
    loop, which runs without preemption up to its next [yield from].
    [step] gives the effect of an event, or [None] when the event is not
    enabled (the thread is not there, the coroutine is suspended);
    [exec] runs a list of events.

    [Stream.close] / [_SendReceiveThread.shutdown] are not part of the
    embedding: the executions considered here are those of a client that is
    never closed. *)

From Stdlib Require Import ZArith String Ascii.
From stdpp Require Import gmap strings list fin_maps.

Local Open Scope Z_scope.
Local Open Scope string_scope.
Local Open Scope list_scope.

(** ** Messages *)

Definition bytes := list Byte.byte.

(** [validator_pb2.Message], the three fields that the stream reads and
    writes. *)
Record Message := mkMessage {
  message_type : Z;
  correlation_id : string;
  content : bytes
}.

(** What sits on the queue that [receive] reads: messages of the validator
    and, exceptionally, an integer. *)
Inductive QueueItem :=
| QMessage (m : Message)
| QInt (z : Z).

(** Used to tell [core.TransactionProcessor] to register again with the
    validator; every other item of the queue is a [Message]. *)
Definition RECONNECT_EVENT : QueueItem := QInt (-1).

#[global] Instance bytes_eq_dec : EqDecision Byte.byte.
Proof. intros x y. unfold Decision. apply Byte.byte_eq_dec. Defined.

#[global] Instance Message_eq_dec : EqDecision Message.
Proof. solve_decision. Defined.

#[global] Instance QueueItem_eq_dec : EqDecision QueueItem.
Proof. solve_decision. Defined.

(** ** Identifiers

    [_generate_id] hashes 1024 random letters with SHA-512 and returns the
    hexadecimal digest.  [hashlib] is not part of the repository: the digest
    function and the random letters are parameters here, and in the
    transition system the string returned by a call of [_generate_id] is
    carried by the event that makes the call. *)
Section GenerateId.
Variable sha512_hexdigest : string -> string.

Definition _generate_id (letters : list ascii) : string :=
  sha512_hexdigest (string_of_list_ascii letters).
End GenerateId.

(** ** Futures and their collection *)

Module future.

(** [FutureResult(message_type, content)] and [FutureError()]. *)
Inductive Outcome :=
| FutureResult (message_type : Z) (content : bytes)
| FutureError.

#[global] Instance Outcome_eq_dec : EqDecision Outcome.
Proof. solve_decision. Defined.

(** Modelled from the spec: the class [Future] of
    [sawtooth_sdk/client/future.py], which is not among the sources.  A
    future is created pending for a correlation id and is a
    single-assignment cell.  The cell is kept here as the list of the
    outcomes handed to [set_result], oldest first, so that a second
    resolution is visible whatever the cell does with it; the value
    of the cell is the first one ([state]). *)
Record Future := mkFuture {
  fut_correlation_id : string;
  resolutions : list Outcome
}.

Definition new (correlation_id : string) : Future :=
  {| fut_correlation_id := correlation_id; resolutions := [] |}.

Definition set_result (result : Outcome) (f : Future) : Future :=
  {| fut_correlation_id := fut_correlation_id f;
     resolutions := resolutions f ++ [result] |}.

Inductive FutureState :=
| Pending
| Resolved (message_type : Z) (content : bytes)
| Failed.

Definition state (f : Future) : FutureState :=
  match resolutions f with
  | [] => Pending
  | FutureResult t c :: _ => Resolved t c
  | FutureError :: _ => Failed
  end.

End future.

Import future.

(** Futures are objects shared by the caller that holds them and the
    collection that resolves them: they live in a heap, a list indexed by
    location, and are referred to by location. *)
Abbreviation loc := nat (only parsing).

Definition heap_set_result (l : loc) (result : Outcome) (h : list Future)
  : list Future :=
  alter (set_result result) l h.

(** Modelled from the spec: the class [FutureCollection] of
    [sawtooth_sdk/client/future.py], which is not among the sources.  It is
    the registry of pending responses, a mapping from correlation id to
    future, with the four methods that [stream.py] calls: [put] inserts a
    future under its correlation id; [set_result] looks the id up and
    resolves the future found, or raises [FutureCollectionKeyError] ([None]
    here) when there is none; [remove] deletes the entry; [future_values]
    are the values of the mapping. *)
Module FutureCollection.

Definition put (l : loc) (f : Future) (fc : gmap string loc)
  : gmap string loc :=
  <[fut_correlation_id f := l]> fc.

Definition set_result (fc : gmap string loc) (h : list Future)
    (correlation_id : string) (result : Outcome) : option (list Future) :=
  match fc !! correlation_id with
  | Some l => Some (heap_set_result l result h)
  | None => None
  end.

Definition remove (correlation_id : string) (fc : gmap string loc)
  : gmap string loc :=
  delete correlation_id fc.

Definition future_values (fc : gmap string loc) : list loc :=
  (map_to_list fc).*2.

End FutureCollection.

(** ** The state of a stream *)

(** A ZMQ socket, as far as [run] configures it. *)
Record Socket := mkSocket {
  identity : string;              (* sock.identity *)
  linger : option Z;              (* sock.set(zmq.LINGER, _) *)
  connected_to : option string;   (* sock.connect(_) *)
  monitored : bool;               (* get_monitor_socket(zmq.EVENT_DISCONNECTED) *)
  closed : bool                   (* sock.close() *)
}.

Definition close (k : Socket) : Socket :=
  {| identity := identity k; linger := linger k;
     connected_to := connected_to k; monitored := monitored k;
     closed := true |}.

(** Where the thread of [_SendReceiveThread.run] stands. *)
Inductive RunPoint :=
| AtLoopTop        (* line 197, about to open a socket *)
| AtQueues         (* line 209, about to create the queues *)
| AtEnsureFuture   (* line 215, about to schedule the coroutines *)
| AtSetReady       (* line 222 *)
| AtRunForever     (* line 223, about to enter the event loop *)
| InRunForever     (* inside run_forever, the event loop is running *)
| Stopping         (* inside run_forever, after call_soon(stop) *)
| Stuck.           (* blocked for ever in the wait_for of _get_message *)

(** The three coroutines that [run] schedules with [ensure_future]. *)
Inductive Coroutine :=
| SendMessage       (* _send_message *)
| ReceiveMessage    (* _receive_message *)
| MonitorDisconnects. (* _monitor_disconnects *)

(** A coroutine handed to the event loop by [run_coroutine_threadsafe]. *)
Inductive Handoff :=
| HPut (message : Message)   (* _put_message(message) *)
| HGet (t : nat).            (* _get_message(), asked for by thread t *)

(** How a call of a caller thread ended. *)
Inductive Returned :=
| ValidatorConnectionError     (* raised *)
| ReturnFuture (l : loc)       (* send *)
| ReturnNone                   (* send_back *)
| ReturnHandle.                (* receive: a concurrent.futures.Future *)

(** Where a caller thread stands inside a call of the stream. *)
Inductive Caller :=
| InSend (message_type : Z) (content : bytes)        (* send, line 252 *)
| InPutMessage (message : Message) (ret : Returned)  (* put_message, line 155 *)
| InWaitFor (message : Message) (ret : Returned)     (* put_message, line 157 *)
| Done (r : Returned).

#[global] Instance RunPoint_eq_dec : EqDecision RunPoint.
Proof. solve_decision. Defined.

#[global] Instance Coroutine_eq_dec : EqDecision Coroutine.
Proof. solve_decision. Defined.

Record State := mkState {
  (* shared by Stream and _SendReceiveThread *)
  _url : string;
  _ready_event : bool;                    (* threading.Event: is_set() *)
  _futures : gmap string loc;             (* FutureCollection *)
  heap : list Future;                     (* the Future objects *)
  (* fields of _SendReceiveThread; None is None *)
  _event_loop : bool;                     (* is not None *)
  _context : bool;                        (* is not None *)
  _sock : option nat;                     (* index in sockets *)
  _monitor_sock : option nat;             (* the socket it monitors *)
  _recv_queue : option (list QueueItem);
  _send_queue : option (list Message);
  (* the thread of run *)
  first_time : bool;
  pc : RunPoint;
  (* the event loop *)
  callbacks : list Handoff;               (* call_soon_threadsafe, not yet run *)
  tasks : list Coroutine;                 (* scheduled and not finished *)
  getters : list nat;                     (* _get_message suspended in get() *)
  (* the environment *)
  sockets : list Socket;                  (* every socket opened so far *)
  wire : list (nat * Message);            (* frames written, with the socket *)
  delivered : list (nat * QueueItem);     (* results of _get_message, by thread *)
  threads : gmap nat Caller               (* caller threads inside a call *)
}.

Definition set_ready_event (v : bool) (s : State) : State :=
  {| _url := _url s; _ready_event := v; _futures := _futures s;
     heap := heap s; _event_loop := _event_loop s; _context := _context s;
     _sock := _sock s; _monitor_sock := _monitor_sock s;
     _recv_queue := _recv_queue s; _send_queue := _send_queue s;
     first_time := first_time s; pc := pc s; callbacks := callbacks s;
     tasks := tasks s; getters := getters s; sockets := sockets s;
     wire := wire s; delivered := delivered s; threads := threads s |}.

Definition set_futures (v : gmap string loc) (s : State) : State :=
  {| _url := _url s; _ready_event := _ready_event s; _futures := v;
     heap := heap s; _event_loop := _event_loop s; _context := _context s;
     _sock := _sock s; _monitor_sock := _monitor_sock s;
     _recv_queue := _recv_queue s; _send_queue := _send_queue s;
     first_time := first_time s; pc := pc s; callbacks := callbacks s;
     tasks := tasks s; getters := getters s; sockets := sockets s;
     wire := wire s; delivered := delivered s; threads := threads s |}.

Definition set_heap (v : list Future) (s : State) : State :=
  {| _url := _url s; _ready_event := _ready_event s; _futures := _futures s;
     heap := v; _event_loop := _event_loop s; _context := _context s;
     _sock := _sock s; _monitor_sock := _monitor_sock s;
     _recv_queue := _recv_queue s; _send_queue := _send_queue s;
     first_time := first_time s; pc := pc s; callbacks := callbacks s;
     tasks := tasks s; getters := getters s; sockets := sockets s;
     wire := wire s; delivered := delivered s; threads := threads s |}.

Definition set_event_loop (v : bool) (s : State) : State :=
  {| _url := _url s; _ready_event := _ready_event s; _futures := _futures s;
     heap := heap s; _event_loop := v; _context := _context s;
     _sock := _sock s; _monitor_sock := _monitor_sock s;
     _recv_queue := _recv_queue s; _send_queue := _send_queue s;
     first_time := first_time s; pc := pc s; callbacks := callbacks s;
     tasks := tasks s; getters := getters s; sockets := sockets s;
     wire := wire s; delivered := delivered s; threads := threads s |}.

Definition set_context (v : bool) (s : State) : State :=
  {| _url := _url s; _ready_event := _ready_event s; _futures := _futures s;
     heap := heap s; _event_loop := _event_loop s; _context := v;
     _sock := _sock s; _monitor_sock := _monitor_sock s;
     _recv_queue := _recv_queue s; _send_queue := _send_queue s;
     first_time := first_time s; pc := pc s; callbacks := callbacks s;
     tasks := tasks s; getters := getters s; sockets := sockets s;
     wire := wire s; delivered := delivered s; threads := threads s |}.

Definition set_sock (v : option nat) (s : State) : State :=
  {| _url := _url s; _ready_event := _ready_event s; _futures := _futures s;
     heap := heap s; _event_loop := _event_loop s; _context := _context s;
     _sock := v; _monitor_sock := _monitor_sock s;
     _recv_queue := _recv_queue s; _send_queue := _send_queue s;
     first_time := first_time s; pc := pc s; callbacks := callbacks s;
     tasks := tasks s; getters := getters s; sockets := sockets s;
     wire := wire s; delivered := delivered s; threads := threads s |}.

Definition set_monitor_sock (v : option nat) (s : State) : State :=
  {| _url := _url s; _ready_event := _ready_event s; _futures := _futures s;
     heap := heap s; _event_loop := _event_loop s; _context := _context s;
     _sock := _sock s; _monitor_sock := v; _recv_queue := _recv_queue s;
     _send_queue := _send_queue s; first_time := first_time s; pc := pc s;
     callbacks := callbacks s; tasks := tasks s; getters := getters s;
     sockets := sockets s; wire := wire s; delivered := delivered s;
     threads := threads s |}.

Definition set_recv_queue (v : option (list QueueItem)) (s : State) : State :=
  {| _url := _url s; _ready_event := _ready_event s; _futures := _futures s;
     heap := heap s; _event_loop := _event_loop s; _context := _context s;
     _sock := _sock s; _monitor_sock := _monitor_sock s; _recv_queue := v;
     _send_queue := _send_queue s; first_time := first_time s; pc := pc s;
     callbacks := callbacks s; tasks := tasks s; getters := getters s;
     sockets := sockets s; wire := wire s; delivered := delivered s;
     threads := threads s |}.

Definition set_send_queue (v : option (list Message)) (s : State) : State :=
  {| _url := _url s; _ready_event := _ready_event s; _futures := _futures s;
     heap := heap s; _event_loop := _event_loop s; _context := _context s;
     _sock := _sock s; _monitor_sock := _monitor_sock s;
     _recv_queue := _recv_queue s; _send_queue := v;
     first_time := first_time s; pc := pc s; callbacks := callbacks s;
     tasks := tasks s; getters := getters s; sockets := sockets s;
     wire := wire s; delivered := delivered s; threads := threads s |}.

Definition set_first_time (v : bool) (s : State) : State :=
  {| _url := _url s; _ready_event := _ready_event s; _futures := _futures s;
     heap := heap s; _event_loop := _event_loop s; _context := _context s;
     _sock := _sock s; _monitor_sock := _monitor_sock s;
     _recv_queue := _recv_queue s; _send_queue := _send_queue s;
     first_time := v; pc := pc s; callbacks := callbacks s; tasks := tasks s;
     getters := getters s; sockets := sockets s; wire := wire s;
     delivered := delivered s; threads := threads s |}.

Definition set_pc (v : RunPoint) (s : State) : State :=
  {| _url := _url s; _ready_event := _ready_event s; _futures := _futures s;
     heap := heap s; _event_loop := _event_loop s; _context := _context s;
     _sock := _sock s; _monitor_sock := _monitor_sock s;
     _recv_queue := _recv_queue s; _send_queue := _send_queue s;
     first_time := first_time s; pc := v; callbacks := callbacks s;
     tasks := tasks s; getters := getters s; sockets := sockets s;
     wire := wire s; delivered := delivered s; threads := threads s |}.

Definition set_callbacks (v : list Handoff) (s : State) : State :=
  {| _url := _url s; _ready_event := _ready_event s; _futures := _futures s;
     heap := heap s; _event_loop := _event_loop s; _context := _context s;
     _sock := _sock s; _monitor_sock := _monitor_sock s;
     _recv_queue := _recv_queue s; _send_queue := _send_queue s;
     first_time := first_time s; pc := pc s; callbacks := v;
     tasks := tasks s; getters := getters s; sockets := sockets s;
     wire := wire s; delivered := delivered s; threads := threads s |}.

Definition set_tasks (v : list Coroutine) (s : State) : State :=
  {| _url := _url s; _ready_event := _ready_event s; _futures := _futures s;
     heap := heap s; _event_loop := _event_loop s; _context := _context s;
     _sock := _sock s; _monitor_sock := _monitor_sock s;
     _recv_queue := _recv_queue s; _send_queue := _send_queue s;
     first_time := first_time s; pc := pc s; callbacks := callbacks s;
     tasks := v; getters := getters s; sockets := sockets s; wire := wire s;
     delivered := delivered s; threads := threads s |}.

Definition set_getters (v : list nat) (s : State) : State :=
  {| _url := _url s; _ready_event := _ready_event s; _futures := _futures s;
     heap := heap s; _event_loop := _event_loop s; _context := _context s;
     _sock := _sock s; _monitor_sock := _monitor_sock s;
     _recv_queue := _recv_queue s; _send_queue := _send_queue s;
     first_time := first_time s; pc := pc s; callbacks := callbacks s;
     tasks := tasks s; getters := v; sockets := sockets s; wire := wire s;
     delivered := delivered s; threads := threads s |}.

Definition set_sockets (v : list Socket) (s : State) : State :=
  {| _url := _url s; _ready_event := _ready_event s; _futures := _futures s;
     heap := heap s; _event_loop := _event_loop s; _context := _context s;
     _sock := _sock s; _monitor_sock := _monitor_sock s;
     _recv_queue := _recv_queue s; _send_queue := _send_queue s;
     first_time := first_time s; pc := pc s; callbacks := callbacks s;
     tasks := tasks s; getters := getters s; sockets := v; wire := wire s;
     delivered := delivered s; threads := threads s |}.

Definition set_wire (v : list (nat * Message)) (s : State) : State :=
  {| _url := _url s; _ready_event := _ready_event s; _futures := _futures s;
     heap := heap s; _event_loop := _event_loop s; _context := _context s;
     _sock := _sock s; _monitor_sock := _monitor_sock s;
     _recv_queue := _recv_queue s; _send_queue := _send_queue s;
     first_time := first_time s; pc := pc s; callbacks := callbacks s;
     tasks := tasks s; getters := getters s; sockets := sockets s; wire := v;
     delivered := delivered s; threads := threads s |}.

Definition set_delivered (v : list (nat * QueueItem)) (s : State) : State :=
  {| _url := _url s; _ready_event := _ready_event s; _futures := _futures s;
     heap := heap s; _event_loop := _event_loop s; _context := _context s;
     _sock := _sock s; _monitor_sock := _monitor_sock s;
     _recv_queue := _recv_queue s; _send_queue := _send_queue s;
     first_time := first_time s; pc := pc s; callbacks := callbacks s;
     tasks := tasks s; getters := getters s; sockets := sockets s;
     wire := wire s; delivered := v; threads := threads s |}.

Definition set_threads (v : gmap nat Caller) (s : State) : State :=
  {| _url := _url s; _ready_event := _ready_event s; _futures := _futures s;
     heap := heap s; _event_loop := _event_loop s; _context := _context s;
     _sock := _sock s; _monitor_sock := _monitor_sock s;
     _recv_queue := _recv_queue s; _send_queue := _send_queue s;
     first_time := first_time s; pc := pc s; callbacks := callbacks s;
     tasks := tasks s; getters := getters s; sockets := sockets s;
     wire := wire s; delivered := delivered s; threads := v |}.


(** ** Stream: the calls of the caller threads *)

(** [Stream.__init__]: the collection is empty, the event is set at once,
    and the thread is started (it stands at the top of the loop of
    [run]). *)
Definition init (url : string) : State :=
  {| _url := url; _ready_event := true; _futures := ∅; heap := [];
     _event_loop := false; _context := false; _sock := None;
     _monitor_sock := None; _recv_queue := None; _send_queue := None;
     first_time := true; pc := AtLoopTop; callbacks := []; tasks := [];
     getters := []; sockets := []; wire := []; delivered := [];
     threads := ∅ |}.

(** [Stream.is_ready]. *)
Definition is_ready (s : State) : bool := _ready_event s.

(** A thread can start a call when it is not inside one. *)
Definition idle (t : nat) (s : State) : bool :=
  match threads s !! t with
  | None | Some (Done _) => true
  | Some _ => false
  end.

Definition at_point (t : nat) (c : Caller) (s : State) : State :=
  set_threads (<[t := c]> (threads s)) s.

(** [Stream.send], lines 250-251: the test of the event. *)
Definition send_enter (t : nat) (message_type : Z) (content : bytes)
    (s : State) : State :=
  if negb (_ready_event s)
  then at_point t (Done ValidatorConnectionError) s
  else at_point t (InSend message_type content) s.

(** [Stream.send], lines 252-257: the message is built around the string
    that [_generate_id] returned, the future is created and put in the
    collection; what is left is [put_message(message)] and
    [return future]. *)
Definition send_register (t : nat) (message_type : Z) (content : bytes)
    (generated : string) (s : State) : State :=
  let message := mkMessage message_type generated content in
  let future := new (correlation_id message) in
  let l := length (heap s) in
  at_point t (InPutMessage message (ReturnFuture l))
    (set_futures (FutureCollection.put l future (_futures s))
       (set_heap (heap s ++ [future]) s)).

(** [Stream.send_back], lines 270-275. *)
Definition send_back_enter (t : nat) (message_type : Z)
    (correlation_id : string) (content : bytes) (s : State) : State :=
  if negb (_ready_event s)
  then at_point t (Done ValidatorConnectionError) s
  else at_point t
         (InPutMessage (mkMessage message_type correlation_id content)
            ReturnNone) s.

(** [put_message], lines 155-156: the test of the event; when it is not
    set the method returns, and so does the call of the stream that made
    it. *)
Definition put_message_enter (t : nat) (message : Message) (ret : Returned)
    (s : State) : State :=
  if negb (_ready_event s)
  then at_point t (Done ret) s
  else at_point t (InWaitFor message ret) s.

(** [put_message], lines 157-161: [wait_for] lets the thread through once
    the loop and the send queue are there, and [_put_message(message)] is
    handed to the loop. *)
Definition put_message_handoff (t : nat) (message : Message) (ret : Returned)
    (s : State) : option State :=
  match _event_loop s, _send_queue s with
  | true, Some _ =>
      Some (at_point t (Done ret)
              (set_callbacks (callbacks s ++ [HPut message]) s))
  | _, _ => None
  end.

(** [Stream.receive], that is [get_message]: [wait_for] lets the thread
    through once the loop is there, and [_get_message()] is handed to the
    loop. *)
Definition get_message (t : nat) (s : State) : option State :=
  if _event_loop s
  then Some (at_point t (Done ReturnHandle)
               (set_callbacks (callbacks s ++ [HGet t]) s))
  else None.

(** ** _SendReceiveThread.run *)

(** Lines 198-208: the loop and the context are created if they are not
    there; a socket is opened, given the first sixteen characters of a
    generated id as its identity and no linger, connected, and
    monitored for disconnects. *)
Definition run_connect (generated : string) (s : State) : State :=
  let k := {| identity := String.substring 0 16 generated;
              linger := Some 0;
              connected_to := Some (String.append "tcp://" (_url s));
              monitored := true;
              closed := false |} in
  let i := length (sockets s) in
  set_pc AtQueues
    (set_monitor_sock (Some i)
       (set_sock (Some i)
          (set_sockets (sockets s ++ [k])
             (set_context true (set_event_loop true s))))).

(** Lines 209-214: two new queues; after the first time the receive queue
    starts with [RECONNECT_EVENT]. *)
Definition run_queues (s : State) : State :=
  set_pc AtEnsureFuture
    (set_recv_queue
       (Some (if first_time s then [] else [RECONNECT_EVENT]))
       (set_send_queue (Some []) s)).

(** Lines 215-220. *)
Definition run_ensure_future (s : State) : State :=
  set_pc AtSetReady
    (set_tasks (tasks s ++ [SendMessage; ReceiveMessage; MonitorDisconnects])
       s).

(** Line 222. *)
Definition run_set_ready (s : State) : State :=
  set_pc AtRunForever (set_ready_event true s).

(** Line 223, entering the event loop. *)
Definition run_forever (s : State) : State := set_pc InRunForever s.

(** Lines 223-225, the event loop has stopped. *)
Definition run_forever_returns (s : State) : State :=
  set_pc AtLoopTop (set_first_time false s).

(** ** The coroutines of the event loop *)

(** A coroutine that returns or dies is no longer a task of the loop. *)
Definition finish (c : Coroutine) (s : State) : State :=
  set_tasks (filter (λ x, x ≠ c) (tasks s)) s.

(** [_send_message], one turn of the loop (lines 110-113): a message is
    taken from the send queue and written to the socket.  [None]: the queue
    is empty and the coroutine stays suspended in [get].  A queue or a
    socket that is [None] makes the coroutine die of an exception. *)
Definition _send_message (s : State) : option State :=
  if negb (_ready_event s) then Some (finish SendMessage s)
  else match _send_queue s, _sock s with
       | Some (msg :: q), Some i =>
           Some (set_wire (wire s ++ [(i, msg)]) (set_send_queue (Some q) s))
       | Some [], _ => None
       | _, _ => Some (finish SendMessage s)
       end.

(** [_receive_message], one turn of the loop (lines 87-102), for the
    message that [recv] returns.  The test of line 87 is made here when the
    coroutine is resumed rather than before it was suspended: the event is
    cleared by [_monitor_disconnects] only, which cancels this coroutine
    in the same segment, so that the test gives the same answer at both
    points. *)
Definition _receive_message (message : Message) (s : State) : State :=
  if negb (_ready_event s) then finish ReceiveMessage s
  else
    match FutureCollection.set_result (_futures s) (heap s)
            (correlation_id message)
            (FutureResult (message_type message) (content message)) with
    | Some h =>
        set_futures
          (FutureCollection.remove (correlation_id message) (_futures s))
          (set_heap h s)
    | None =>
        (* FutureCollectionKeyError: an initial message, not a response *)
        if negb (_ready_event s) then finish ReceiveMessage s
        else match _recv_queue s with
             | Some q => set_recv_queue (Some (q ++ [QMessage message])) s
             | None => finish ReceiveMessage s
             end
    end.

(** [_put_message]; on a send queue that is [None] the coroutine dies of
    an exception, and the message with it. *)
Definition _put_message (message : Message) (s : State) : State :=
  match _send_queue s with
  | Some q => set_send_queue (Some (q ++ [message])) s
  | None => s
  end.

Definition deliver (t : nat) (x : QueueItem) (q : list QueueItem)
    (s : State) : State :=
  set_delivered (delivered s ++ [(t, x)]) (set_recv_queue (Some q) s).

(** [_get_message], up to its [yield from]: with no receive queue the
    [wait_for] blocks the thread of the loop itself; with an empty queue
    the coroutine is suspended in [get]; otherwise it returns the first
    item. *)
Definition _get_message (t : nat) (s : State) : State :=
  match _recv_queue s with
  | None => set_pc Stuck s
  | Some [] => set_getters (getters s ++ [t]) s
  | Some (x :: q) => deliver t x q s
  end.

(** A [_get_message] suspended in [get] is resumed with the first item. *)
Definition _get_message_resume (s : State) : option State :=
  match getters s, _recv_queue s with
  | t :: g, Some (x :: q) => Some (deliver t x q (set_getters g s))
  | _, _ => None
  end.

(** The loop of lines 141-142. *)
Definition fail_all (ls : list loc) (h : list Future) : list Future :=
  foldl (λ h l, heap_set_result l FutureError h) h ls.

(** [_monitor_disconnects], lines 140-149, after the disconnect event has
    been received; the coroutine has no [yield from] there, so that the
    event loop runs nothing in between.  Cancelling all the tasks ends the
    three coroutines and the suspended [_get_message]s; the coroutines
    handed over by other threads and not yet started stay with the
    loop. *)
Definition _monitor_disconnects (s : State) : State :=
  let s := set_ready_event false s in
  let s := set_heap
             (fail_all (FutureCollection.future_values (_futures s)) (heap s))
             s in
  let s := set_getters [] (set_tasks [] s) in
  let s := set_recv_queue None (set_send_queue None s) in
  let s := match _sock s with
           | Some i => set_sockets (alter close i (sockets s)) s
           | None => s
           end in
  let s := set_sock None s in
  set_pc Stopping s.

(** ** The transition system *)

Inductive Event :=
(* caller threads *)
| Send (t : nat) (message_type : Z) (content : bytes)
    (* t calls send and tests the event *)
| SendRegister (t : nat) (generated : string)
    (* t, inside send, builds the message and registers the future *)
| SendBack (t : nat) (message_type : Z) (correlation_id : string)
    (content : bytes)
    (* t calls send_back, tests the event and builds the message *)
| PutMessage (t : nat)
    (* t enters put_message and tests the event *)
| PutMessageHandoff (t : nat)
    (* t gets through wait_for and hands _put_message to the loop *)
| Receive (t : nat)
    (* t calls receive *)
(* the thread of run *)
| Connect (generated : string)
| Queues
| EnsureFuture
| SetReady
| RunForever
| RunForeverReturns
(* the event loop *)
| Callback
    (* the coroutine handed over first is started *)
| SendTurn
    (* _send_message gets a message from the send queue *)
| Recv (message : Message)
    (* _receive_message gets a message from the socket *)
| Disconnected
    (* _monitor_disconnects gets the disconnect event *)
| GetResume.
    (* a suspended _get_message gets an item from the receive queue *)

(** The coroutine is a task of the loop, and the loop is running. *)
Definition running (c : Coroutine) (s : State) : bool :=
  bool_decide (pc s = InRunForever) && bool_decide (c ∈ tasks s).

(** The event loop starts the coroutines handed over by other threads
    while it runs and in its last turn after [stop] was scheduled; the
    three coroutines of [run] and the suspended [_get_message]s are resumed
    while it runs. *)
Definition step (e : Event) (s : State) : option State :=
  match e with
  | Send t message_type content =>
      if idle t s then Some (send_enter t message_type content s) else None
  | SendRegister t generated =>
      match threads s !! t with
      | Some (InSend message_type content) =>
          Some (send_register t message_type content generated s)
      | _ => None
      end
  | SendBack t message_type correlation_id content =>
      if idle t s
      then Some (send_back_enter t message_type correlation_id content s)
      else None
  | PutMessage t =>
      match threads s !! t with
      | Some (InPutMessage message ret) =>
          Some (put_message_enter t message ret s)
      | _ => None
      end
  | PutMessageHandoff t =>
      match threads s !! t with
      | Some (InWaitFor message ret) => put_message_handoff t message ret s
      | _ => None
      end
  | Receive t => if idle t s then get_message t s else None
  | Connect generated =>
      if bool_decide (pc s = AtLoopTop)
      then Some (run_connect generated s) else None
  | Queues =>
      if bool_decide (pc s = AtQueues) then Some (run_queues s) else None
  | EnsureFuture =>
      if bool_decide (pc s = AtEnsureFuture)
      then Some (run_ensure_future s) else None
  | SetReady =>
      if bool_decide (pc s = AtSetReady)
      then Some (run_set_ready s) else None
  | RunForever =>
      if bool_decide (pc s = AtRunForever)
      then Some (run_forever s) else None
  | RunForeverReturns =>
      if bool_decide (pc s = Stopping)
      then Some (run_forever_returns s) else None
  | Callback =>
      if bool_decide (pc s = InRunForever) || bool_decide (pc s = Stopping)
      then match callbacks s with
           | HPut message :: rest =>
               Some (_put_message message (set_callbacks rest s))
           | HGet t :: rest =>
               Some (_get_message t (set_callbacks rest s))
           | [] => None
           end
      else None
  | SendTurn =>
      if running SendMessage s then _send_message s else None
  | Recv message =>
      if running ReceiveMessage s
      then Some (_receive_message message s) else None
  | Disconnected =>
      if running MonitorDisconnects s
      then Some (_monitor_disconnects s) else None
  | GetResume =>
      if bool_decide (pc s = InRunForever)
      then _get_message_resume s else None
  end.

Fixpoint exec (s : State) (evs : list Event) : option State :=
  match evs with
  | [] => Some s
  | e :: evs =>
      match step e s with
      | Some s' => exec s' evs
      | None => None
      end
  end.

(** The states that a stream can be in. *)
Definition reachable (s : State) : Prop :=
  ∃ url evs, exec (init url) evs = Some s.

(** The future at a location, and its state. *)
Definition future_at (s : State) (l : loc) : option Future := heap s !! l.

Definition state_at (s : State) (l : loc) : option FutureState :=
  state <$> heap s !! l.

(** ** Invariants *)

Definition all_tasks : list Coroutine :=
  [SendMessage; ReceiveMessage; MonitorDisconnects].

(** The socket of the thread is open and connected to the validator. *)
Definition connected (s : State) : Prop :=
  ∃ i k, _sock s = Some i ∧ sockets s !! i = Some k ∧
         connected_to k = Some (String.append "tcp://" (_url s)) ∧
         closed k = false.

(** Both queues are there. *)
Definition has_queues (s : State) : Prop :=
  is_Some (_send_queue s) ∧ is_Some (_recv_queue s).

Definition no_queues (s : State) : Prop :=
  _send_queue s = None ∧ _recv_queue s = None.

(** The window between a disconnect event and the next [set] of the
    event by [run]. *)
Definition in_reconnect_window (s : State) : Prop :=
  pc s = Stopping ∨ pc s = Stuck ∨
  (first_time s = false ∧
   (pc s = AtLoopTop ∨ pc s = AtQueues ∨ pc s = AtEnsureFuture ∨
    pc s = AtSetReady)).

(** The first pass of [run], before the event has ever been cleared. *)
Definition in_first_setup (s : State) : Prop :=
  first_time s = true ∧
  (pc s = AtLoopTop ∨ pc s = AtQueues ∨ pc s = AtEnsureFuture ∨
   pc s = AtSetReady).

(** The socket is connected, the queues are there and the three coroutines
    are tasks of the loop, which [run] is about to enter or has entered. *)
Definition active (s : State) : Prop :=
  (pc s = AtRunForever ∨ pc s = InRunForever) ∧
  connected s ∧ has_queues s ∧ tasks s = all_tasks.

(** What holds at each point of [run]. *)
Definition run_inv (s : State) : Prop :=
  match pc s with
  | AtLoopTop =>
      tasks s = [] ∧ _sock s = None ∧ no_queues s ∧
      (_ready_event s = true → first_time s = true ∧ sockets s = [])
  | AtQueues =>
      tasks s = [] ∧ connected s ∧ no_queues s ∧
      (_ready_event s = true → first_time s = true)
  | AtEnsureFuture =>
      tasks s = [] ∧ connected s ∧ has_queues s ∧
      (_ready_event s = true → first_time s = true)
  | AtSetReady =>
      tasks s = all_tasks ∧ connected s ∧ has_queues s ∧
      (_ready_event s = true → first_time s = true)
  | AtRunForever | InRunForever =>
      tasks s = all_tasks ∧ connected s ∧ has_queues s ∧
      _ready_event s = true
  | Stopping | Stuck =>
      tasks s = [] ∧ _sock s = None ∧ no_queues s ∧
      _ready_event s = false
  end.

(** Every entry of the collection is a future of the heap, and no future
    is entered under two ids. *)
Definition registry_inv (s : State) : Prop :=
  (∀ c l, _futures s !! c = Some l → l < length (heap s))%nat ∧
  (∀ c1 c2 l, _futures s !! c1 = Some l → _futures s !! c2 = Some l →
              c1 = c2).

Definition inv (s : State) : Prop := registry_inv s ∧ run_inv s.

(** A future that the collection does not hold. *)
Definition unregistered (s : State) (l : loc) : Prop :=
  ∀ c, _futures s !! c ≠ Some l.

(** The items of the receive queue, none when there is no queue. *)
Definition queued (s : State) : list QueueItem :=
  default [] (_recv_queue s).

(** The items that [_get_message] has returned since the [n]-th. *)
Definition delivered_since (n : nat) (s : State) : list QueueItem :=
  (drop n (delivered s)).*2.

(** The first time round the loop of [run]: one socket at most has been
    opened, and the event is as [Stream.__init__] left it until the loop
    is entered. *)
Definition first_inv (s : State) : Prop :=
  first_time s = true →
  match pc s with
  | AtLoopTop => sockets s = [] ∧ _ready_event s = true
  | AtQueues | AtEnsureFuture | AtSetReady =>
      length (sockets s) = 1%nat ∧ _ready_event s = true
  | _ => length (sockets s) = 1%nat
  end.

(** The outcomes that the future at a location has been given. *)
Definition resolutions_at (s : State) (l : loc) : option (list Outcome) :=
  resolutions <$> heap s !! l.

(** The points of [run] between the creation of the queues and the next
    disconnect event. *)
Definition in_epoch (s : State) : Prop :=
  pc s = AtEnsureFuture ∨ pc s = AtSetReady ∨ pc s = AtRunForever ∨
  pc s = InRunForever.

(** An event of the thread [t]. *)
Definition event_of (t : nat) (e : Event) : Prop :=
  match e with
  | Send t' _ _ | SendRegister t' _ | SendBack t' _ _ _ | PutMessage t'
  | PutMessageHandoff t' | Receive t' => t' = t
  | _ => False
  end.

(** ** Executions used as examples *)

Definition validator : string := "localhost:4004".

Definition ping : bytes := [Byte.x70; Byte.x69; Byte.x6e; Byte.x67].

(** One pass of [run] from the top of its loop into the event loop. *)
Definition connect (generated : string) : list Event :=
  [Connect generated; Queues; EnsureFuture; SetReady; RunForever].

(** The state that a list of events leads to from a new stream. *)
Definition after (evs : list Event) : State :=
  default (init validator) (exec (init validator) evs).

(** Thread 1 calls [send] on a connected stream and passes the test of the
    event. *)
Definition accepted : list Event :=
  connect "3f0a9c51d27be846aa" ++ [Send 1 7 ping].

(** The disconnect event comes before the thread goes on. *)
Definition dropped : list Event :=
  accepted ++ [Disconnected; SendRegister 1 "c1"; PutMessage 1].

(** The stream connects again. *)
Definition reconnected : list Event :=
  dropped ++ [RunForeverReturns] ++ connect "77b1e0c4f5a29d63bc".

(** A request goes out and the connection is lost before the response. *)
Definition failed_once : list Event :=
  connect "3f0a9c51d27be846aa" ++
  [Send 1 7 ping; SendRegister 1 "c1"; PutMessage 1; PutMessageHandoff 1;
   Callback; SendTurn; Disconnected].

(** The stream connects again, *)
Definition next_epoch : list Event :=
  failed_once ++ [RunForeverReturns] ++ connect "77b1e0c4f5a29d63bc".

(** and that connection is lost as well. *)
Definition failed_twice : list Event := next_epoch ++ [Disconnected].

(** A message that is not a response arrives, and the connection is lost
    before any thread has asked for it. *)
Definition unsolicited : Message := mkMessage 3 "v9" ping.

Definition lost_unread : list Event :=
  connect "3f0a9c51d27be846aa" ++
  [Recv unsolicited; Disconnected; RunForeverReturns] ++
  connect "77b1e0c4f5a29d63bc" ++ [Receive 2; Callback].

(** Nothing but markers has been read from, or waits on, the receive
    queue. *)
Definition only_markers (s : State) : Prop :=
  Forall (λ x, x = RECONNECT_EVENT) ((delivered s).*2) ∧
  Forall (λ x, x = RECONNECT_EVENT) (queued s).

(** ** The rest of the stream: what is written, read and resolved *)

(** The messages of the send queue, none when there is no queue. *)
Definition to_send (s : State) : list Message :=
  default [] (_send_queue s).

(** A message built by one call in an execution from [s0].  The call found
    the event set when it tested it, and it is either a call of
    [send_back] with the type, the id and the content of the message, or a
    call of [send] with its type and content, for which [_generate_id]
    returned its id: the [SendRegister] is the next step of the thread
    after the [Send]. *)
Definition submitted (s0 : State) (evs : list Event) (m : Message) : Prop :=
  ∃ t pre s,
    exec s0 pre = Some s ∧ is_ready s = true ∧
    ((∃ post,
        evs = pre ++ SendBack t (message_type m) (correlation_id m)
                       (content m) :: post) ∨
     (∃ mid post,
        evs = pre ++ Send t (message_type m) (content m) :: mid ++
                     SendRegister t (correlation_id m) :: post ∧
        Forall (λ e, ¬ event_of t e) mid)).

(** The messages that a thread carries through a call. *)
Definition carried (c : Caller) : list Message :=
  match c with
  | InPutMessage m _ | InWaitFor m _ => [m]
  | InSend _ _ | Done _ => []
  end.

(** The messages that the stream holds on their way to the socket, and
    those it has written. *)
Definition outbound (s : State) (m : Message) : Prop :=
  (∃ t c, threads s !! t = Some c ∧ m ∈ carried c) ∨
  HPut m ∈ callbacks s ∨ m ∈ to_send s ∨ m ∈ (wire s).*2.

(** The number of reconnect markers of a list of items. *)
Definition markers (l : list QueueItem) : nat :=
  length (filter (λ x, x = RECONNECT_EVENT) l).

(** What the stream has opened: every socket has the settings that [run]
    gives it, and none but the socket of the thread is open. *)
Definition sockets_inv (s : State) : Prop :=
  ∀ i k, sockets s !! i = Some k →
    (String.length (identity k) ≤ 16)%nat ∧
    linger k = Some 0 ∧ monitored k = true ∧
    connected_to k = Some (String.append "tcp://" (_url s)) ∧
    (closed k = false → _sock s = Some i).

(** Every entry of the collection leads to a future made for its id, and
    so does the location that [send] is about to return or has returned. *)
Definition keyed_inv (s : State) : Prop :=
  (∀ c l, _futures s !! c = Some l →
          ∃ f, heap s !! l = Some f ∧ fut_correlation_id f = c) ∧
  (∀ t m l,
     threads s !! t = Some (InPutMessage m (ReturnFuture l)) ∨
     threads s !! t = Some (InWaitFor m (ReturnFuture l)) →
     ∃ f, heap s !! l = Some f ∧ fut_correlation_id f = correlation_id m) ∧
  (∀ t l, threads s !! t = Some (Done (ReturnFuture l)) →
          is_Some (heap s !! l)).

(** Where an outcome of a future comes from: a message of the validator
    with the id of the future, or a disconnect event. *)
Definition outcome_origin (evs : list Event) (f : Future) (o : Outcome)
  : Prop :=
  match o with
  | FutureResult t c => Recv (mkMessage t (fut_correlation_id f) c) ∈ evs
  | FutureError => Disconnected ∈ evs
  end.

(** Where an item read from the receive queue comes from. *)
Definition item_origin (evs : list Event) (x : QueueItem) : Prop :=
  match x with
  | QMessage m => Recv m ∈ evs
  | QInt z => x = RECONNECT_EVENT ∧ Disconnected ∈ evs
  end.

(** A call of [receive] is handed to the loop and the disconnect event is
    handled before the loop starts it. *)
Definition receive_meets_disconnect (t : nat) : list Event :=
  [Receive t; Disconnected; Callback].

(** One more marker is due when [run] is about to create the queues after
    the first time. *)
Definition marker_due (s : State) : nat :=
  if bool_decide (pc s = AtQueues) && negb (first_time s) then 1 else 0.

(** The markers read and queued, and the one that is due, are no more than
    the sockets opened after the first. *)
Definition markers_inv (s : State) : Prop :=
  (markers ((delivered s).*2 ++ queued s) + marker_due s
   ≤ length (sockets s) - 1)%nat ∧
  (first_time s = false ∨ pc s ≠ AtLoopTop → 1 ≤ length (sockets s))%nat.

(** ** What an execution hands over, queues and receives *)

(** What the events of an execution contribute, in order, each seen from
    the state in which it is taken. *)
Fixpoint gather {A : Type} (f : Event → State → list A) (s : State)
    (evs : list Event) : list A :=
  match evs with
  | [] => []
  | e :: evs =>
      match step e s with
      | Some s' => f e s ++ gather f s' evs
      | None => []
      end
  end.

(** The message that a thread hands to the loop when it gets through the
    [wait_for] of [put_message]: the argument of the call. *)
Definition handed_over (e : Event) (s : State) : list Message :=
  match e with
  | PutMessageHandoff t =>
      match threads s !! t with
      | Some (InWaitFor message _) => [message]
      | _ => []
      end
  | _ => []
  end.

(** The message of the [_put_message] that the loop starts. *)
Definition started_put (e : Event) (s : State) : list Message :=
  match e, callbacks s with
  | Callback, HPut message :: _ => [message]
  | _, _ => []
  end.

(** The messages of the [_put_message]s handed to the loop and not yet
    started. *)
Fixpoint pending_puts (h : list Handoff) : list Message :=
  match h with
  | [] => []
  | HPut message :: h => message :: pending_puts h
  | HGet _ :: h => pending_puts h
  end.

Fixpoint count {A : Type} (p : A → bool) (l : list A) : nat :=
  match l with
  | [] => 0
  | x :: l => (if p x then 1 else 0) + count p l
  end.

(** The socket delivers [m]. *)
Definition is_recv_of (m : Message) (e : Event) : bool :=
  match e with
  | Recv message => bool_decide (message = m)
  | _ => false
  end.

(** The times that [m] is among the items of a list. *)
Definition read_of (m : Message) (l : list QueueItem) : nat :=
  count (λ x, bool_decide (x = QMessage m)) l.

(** The times that the futures made for the id of [m] have been given the
    result of [m]. *)
Definition resolved_by (m : Message) (h : list Future) : nat :=
  sum_list_with
    (λ f, if bool_decide (fut_correlation_id f = correlation_id m)
          then count (λ o, bool_decide
                             (o = FutureResult (message_type m) (content m)))
                 (resolutions f)
          else 0%nat) h.

(** An event of the thread of [run]. *)
Definition is_run (e : Event) : bool :=
  match e with
  | Connect _ | Queues | EnsureFuture | SetReady | RunForever
  | RunForeverReturns => true
  | _ => false
  end.

(** What is left of a pass of [run] from each of its points. *)
Definition rest_of_pass (generated : string) (p : RunPoint) : list Event :=
  match p with
  | Stopping => RunForeverReturns :: connect generated
  | AtLoopTop => connect generated
  | AtQueues => [Queues; EnsureFuture; SetReady; RunForever]
  | AtEnsureFuture => [EnsureFuture; SetReady; RunForever]
  | AtSetReady => [SetReady; RunForever]
  | AtRunForever => [RunForever]
  | InRunForever | Stuck => []
  end.

(** * Proofs *)

(** ** The heap of futures *)

Section Heap.
Implicit Types (h : list Future) (l : loc) (f : Future) (r : Outcome).

(** [k] more errors on a future. *)
Lemma set_result_state r f :
  resolutions f ≠ [] → state (set_result r f) = state f.
Proof.
  unfold state, set_result; simpl.
  destruct (resolutions f) as [|o rs]; [done|].
  intros _. by destruct o.
Qed.

Lemma set_result_pending r f :
  resolutions f = [] → resolutions (set_result r f) = [r].
Proof. unfold set_result; simpl. by intros ->. Qed.

Lemma heap_set_result_length l r h :
  length (heap_set_result l r h) = length h.
Proof. apply length_alter. Qed.

Lemma heap_set_result_eq l r h :
  heap_set_result l r h !! l = set_result r <$> h !! l.
Proof. apply list_lookup_alter_eq. Qed.

Lemma heap_set_result_ne l l' r h :
  l ≠ l' → heap_set_result l r h !! l' = h !! l'.
Proof. intros. by apply list_lookup_alter_ne. Qed.

Lemma fail_all_length ls h : length (fail_all ls h) = length h.
Proof.
  revert h. induction ls as [|a ls IH]; intros h; simpl; [done|].
  unfold fail_all in *. simpl. by rewrite IH, heap_set_result_length.
Qed.

Lemma fail_all_other ls h l : l ∉ ls → fail_all ls h !! l = h !! l.
Proof.
  revert h. induction ls as [|a ls IH]; intros h Hl; [done|].
  apply not_elem_of_cons in Hl as [Hne Hl].
  unfold fail_all in *. simpl. rewrite IH by done.
  by apply heap_set_result_ne.
Qed.

(** A future of the list that is pending comes out failed; when it
    occurs once in the list, with that one error. *)
Lemma fail_all_once ls h l f :
  NoDup ls → l ∈ ls → h !! l = Some f →
  fail_all ls h !! l = Some (set_result FutureError f).
Proof.
  revert h f. induction ls as [|a ls IH]; intros h f Hnd Hin Hf.
  { by apply elem_of_nil in Hin. }
  apply NoDup_cons in Hnd as [Ha Hnd].
  unfold fail_all in *. simpl.
  destruct (decide (a = l)) as [->|Hne].
  - fold (fail_all ls (heap_set_result l FutureError h)).
    rewrite fail_all_other by done.
    by rewrite heap_set_result_eq, Hf.
  - apply elem_of_cons in Hin as [?|Hin]; [congruence|].
    apply IH; [done..|]. by rewrite heap_set_result_ne.
Qed.

(** Whatever the list, the resolutions of a future only grow, by
    errors. *)
Lemma fail_all_lookup ls h l :
  ∃ k, fail_all ls h !! l =
         (λ f, mkFuture (fut_correlation_id f)
                 (resolutions f ++ replicate k FutureError)) <$> h !! l ∧
       (l ∈ ls → (0 < k)%nat).
Proof.
  revert h. induction ls as [|a ls IH]; intros h.
  - exists 0%nat. split; [|by intros ?%elem_of_nil].
    simpl. destruct (h !! l) as [[]|]; simpl; [|done].
    by rewrite app_nil_r.
  - unfold fail_all in *. simpl.
    destruct (IH (heap_set_result a FutureError h)) as (k & Hk & Hpos).
    destruct (decide (a = l)) as [->|Hne].
    + exists (S k). split; [|lia].
      rewrite Hk, heap_set_result_eq.
      destruct (h !! l) as [f|]; simpl; [|done].
      by rewrite <- app_assoc.
    + exists k. split.
      * by rewrite Hk, heap_set_result_ne.
      * intros [?|?]%elem_of_cons; [congruence|auto].
Qed.
End Heap.

(** ** The collection *)

Section Collection.
Implicit Types (fc : gmap string loc) (l : loc).

Lemma elem_of_future_values fc l :
  l ∈ FutureCollection.future_values fc ↔ ∃ c, fc !! c = Some l.
Proof.
  unfold FutureCollection.future_values. rewrite list_elem_of_fmap. split.
  - intros ([c l'] & -> & Hin). exists c. by apply elem_of_map_to_list.
  - intros [c Hc]. exists (c, l). split; [done|].
    by apply elem_of_map_to_list.
Qed.

Lemma NoDup_future_values fc :
  (∀ c1 c2 l, fc !! c1 = Some l → fc !! c2 = Some l → c1 = c2) →
  NoDup (FutureCollection.future_values fc).
Proof.
  intros Hinj. unfold FutureCollection.future_values.
  apply NoDup_fmap_2_strong; [|apply NoDup_map_to_list].
  intros [c1 l1] [c2 l2] H1%elem_of_map_to_list H2%elem_of_map_to_list.
  simpl. intros <-. f_equal. eauto.
Qed.
End Collection.

(** ** Taking a step apart *)

Ltac bool_hyps :=
  repeat match goal with
  | H : bool_decide _ = true |- _ => apply bool_decide_eq_true in H
  | H : bool_decide _ = false |- _ => apply bool_decide_eq_false in H
  | H : _ && _ = true |- _ => apply andb_true_iff in H as [? ?]
  | H : _ || _ = true |- _ => apply orb_true_iff in H as [?|?]
  | H : negb _ = true |- _ => apply negb_true_iff in H
  | H : negb _ = false |- _ => apply negb_false_iff in H
  end.

Ltac unfold_ops :=
  unfold send_enter, send_register, send_back_enter, put_message_enter,
    put_message_handoff, get_message, run_connect, run_queues,
    run_ensure_future, run_set_ready, run_forever, run_forever_returns,
    _send_message, _receive_message, _put_message, _get_message,
    _get_message_resume, _monitor_disconnects, deliver, finish, at_point,
    FutureCollection.set_result, FutureCollection.put,
    FutureCollection.remove in *.

(** From [step e s = Some s'] to one goal for each way the event can go,
    with [s'] written out. *)
Ltac step_inv H :=
  match type of H with
  | step ?e _ = Some _ => first [is_var e; destruct e | idtac]
  end;
  simpl in H; unfold running in H;
  repeat case_match; simplify_eq; bool_hyps;
  unfold_ops; repeat case_match; simplify_eq; bool_hyps; simpl in *.

Lemma exec_app s evs1 evs2 :
  exec s (evs1 ++ evs2) = exec s evs1 ≫= λ s', exec s' evs2.
Proof.
  revert s. induction evs1 as [|e evs1 IH]; intros s; simpl; [done|].
  destruct (step e s); simpl; [apply IH|done].
Qed.

(** A property kept by every step is kept by every execution. *)
Lemma exec_ind (P : State → Prop) :
  (∀ e s s', P s → step e s = Some s' → P s') →
  ∀ evs s s', P s → exec s evs = Some s' → P s'.
Proof.
  intros Hstep evs. induction evs as [|e evs IH]; intros s s' HP Hex.
  - simpl in Hex. by simplify_eq.
  - simpl in Hex. destruct (step e s) as [s1|] eqn:Hs; [|done].
    eapply IH; [|done]. eauto.
Qed.

(** ** The invariants *)

Lemma registry_inv_step e s s' :
  registry_inv s → step e s = Some s' → registry_inv s'.
Proof.
  intros [Hv Hi] H. unfold registry_inv.
  step_inv H; try (split; assumption).
  - (* SendRegister: a new future at the end of the heap *)
    rewrite length_app. simpl. split.
    + intros c l. rewrite lookup_insert. case_decide; intros Hl.
      * simplify_eq. lia.
      * apply Hv in Hl. lia.
    + intros c1 c2 l. rewrite !lookup_insert.
      repeat case_decide; intros Ha Hb; simplify_eq; eauto;
        try (apply Hv in Ha; lia); try (apply Hv in Hb; lia).
  - (* Recv, a response: the entry is removed *)
    rewrite heap_set_result_length. split.
    + intros c l' [_ Hl]%lookup_delete_Some. eauto.
    + intros c1 c2 l' [_ Ha]%lookup_delete_Some [_ Hb]%lookup_delete_Some.
      eauto.
  - (* Disconnected *)
    rewrite fail_all_length. by split.
  - rewrite fail_all_length. by split.
Qed.

Lemma run_inv_init url : run_inv (init url).
Proof. unfold run_inv, no_queues. simpl. auto. Qed.

Lemma connected_frame s s' :
  _sock s' = _sock s → sockets s' = sockets s → _url s' = _url s →
  connected s → connected s'.
Proof. unfold connected. intros -> -> ->. auto. Qed.

Ltac close_run_inv :=
  unfold connected, has_queues, no_queues, is_Some, all_tasks in *;
  simpl in *;
  repeat match goal with
         | H : ∃ _, _ |- _ => destruct H
         | H : _ ∧ _ |- _ => destruct H
         end;
  simplify_eq; split_and?; intros;
  repeat match goal with
         | H : ?P → _, H' : ?P |- _ => specialize (H H')
         end;
  destruct_and?; simplify_eq;
  try done; try congruence; eauto 10.

Lemma run_inv_step e s s' :
  run_inv s → step e s = Some s' → run_inv s'.
Proof.
  intros Hr H. unfold run_inv in *.
  step_inv H; destruct (pc s) eqn:Hpc; simplify_eq; try close_run_inv.
  - (* Connect: the socket just opened *)
    eexists _, _. split; [done|].
    split; [by apply list_lookup_middle|done].
  - (* EnsureFuture *)
    by rewrite H.
Qed.

Lemma inv_init url : inv (init url).
Proof.
  split; [|apply run_inv_init].
  split; intros *; simpl; by rewrite lookup_empty.
Qed.

Lemma inv_step e s s' : inv s → step e s = Some s' → inv s'.
Proof.
  intros [? ?] ?. split; eauto using registry_inv_step, run_inv_step.
Qed.

Lemma inv_exec evs s s' : inv s → exec s evs = Some s' → inv s'.
Proof. apply exec_ind. intros. by eapply inv_step. Qed.

Lemma reachable_inv s : reachable s → inv s.
Proof. intros (url & evs & H). eapply inv_exec; [apply inv_init|done]. Qed.

Lemma reachable_exec evs s s' :
  reachable s → exec s evs = Some s' → reachable s'.
Proof.
  intros (url & evs0 & H0) H. exists url, (evs0 ++ evs).
  by rewrite exec_app, H0.
Qed.

Lemma first_inv_init url : first_inv (init url).
Proof. by intros _. Qed.

Lemma first_inv_step e s s' :
  first_inv s → step e s = Some s' → first_inv s'.
Proof.
  intros Hf H. unfold first_inv in *.
  step_inv H; intros Hft; try done; try congruence;
    first [specialize (Hf Hft) | specialize (Hf eq_refl)];
    destruct (pc s) eqn:Hpc; simplify_eq;
    rewrite ?length_alter, ?length_app; simpl;
    destruct_and?; try done; try (split; [|done]); try congruence.
  (* Connect: the first socket *)
  match goal with H : sockets s = [] |- _ => by rewrite H end.
Qed.

(** ** What a step does to the futures *)

(** The resolutions of a future only grow. *)
Lemma step_resolutions e s s' l f :
  step e s = Some s' → heap s !! l = Some f →
  ∃ f', heap s' !! l = Some f' ∧
        fut_correlation_id f' = fut_correlation_id f ∧
        resolutions f `prefix_of` resolutions f'.
Proof.
  intros H Hf.
  step_inv H; try (by exists f).
  - (* SendRegister *)
    exists f. split; [|done]. by apply lookup_app_l_Some.
  - (* Recv, a response *)
    match goal with |- context [heap_set_result ?n _ _] =>
      destruct (decide (n = l)) as [->|Hne] end.
    + rewrite heap_set_result_eq, Hf. simpl. eexists. split; [done|].
      split; [done|]. by apply prefix_app_r.
    + rewrite heap_set_result_ne by done. by exists f.
  - (* Disconnected *)
    destruct (fail_all_lookup (FutureCollection.future_values (_futures s))
                (heap s) l) as (k & -> & _).
    rewrite Hf. simpl. eexists. split; [done|]. split; [done|].
    by apply prefix_app_r.
  - destruct (fail_all_lookup (FutureCollection.future_values (_futures s))
                (heap s) l) as (k & -> & _).
    rewrite Hf. simpl. eexists. split; [done|]. split; [done|].
    by apply prefix_app_r.
Qed.

Lemma state_prefix f f' :
  resolutions f `prefix_of` resolutions f' → state f ≠ Pending →
  state f' = state f.
Proof.
  intros [rs Hrs]. unfold state. rewrite Hrs.
  by destruct (resolutions f) as [|[] ?].
Qed.

(** A future that is resolved or failed stays as it is. *)
Lemma step_state_stable e s s' l st :
  step e s = Some s' → state_at s l = Some st → st ≠ Pending →
  state_at s' l = Some st.
Proof.
  unfold state_at. intros H Hst Hne.
  destruct (heap s !! l) as [f|] eqn:Hf; [|done]. simpl in Hst.
  destruct (step_resolutions _ _ _ _ _ H Hf) as (f' & -> & _ & Hpre).
  simpl. simplify_eq. f_equal. by apply state_prefix.
Qed.

Lemma exec_state_stable evs s s' l st :
  exec s evs = Some s' → state_at s l = Some st → st ≠ Pending →
  state_at s' l = Some st.
Proof.
  intros H Hst Hne.
  refine (exec_ind (λ s, state_at s l = Some st) _ evs s s' Hst H).
  intros. by eapply step_state_stable.
Qed.

(** A future that the collection does not hold is out of reach of the
    stream: no step resolves it, and no step enters it again. *)
Lemma step_unregistered e s s' l :
  registry_inv s → step e s = Some s' →
  (l < length (heap s))%nat → unregistered s l →
  unregistered s' l ∧ heap s' !! l = heap s !! l.
Proof.
  intros [Hv Hi] H Hl Hu. unfold unregistered in *.
  step_inv H; try done.
  - (* SendRegister: the new future is another one *)
    split.
    + intros c. rewrite lookup_insert. case_decide; [|done].
      intros ?. simplify_eq. lia.
    + by apply lookup_app_l.
  - (* Recv, a response for another future *)
    split.
    + intros c [_ ?]%lookup_delete_Some. by eapply Hu.
    + apply heap_set_result_ne. intros ->. by eapply Hu.
  - (* Disconnected *)
    split; [done|]. apply fail_all_other.
    intros [c Hc]%elem_of_future_values. by eapply Hu.
  - split; [done|]. apply fail_all_other.
    intros [c Hc]%elem_of_future_values. by eapply Hu.
Qed.

Lemma step_heap_length e s s' :
  step e s = Some s' → (length (heap s) ≤ length (heap s'))%nat.
Proof.
  intros H. step_inv H;
    rewrite ?length_app, ?heap_set_result_length, ?fail_all_length; lia.
Qed.

Lemma exec_unregistered evs s s' l :
  registry_inv s → exec s evs = Some s' →
  (l < length (heap s))%nat → unregistered s l →
  heap s' !! l = heap s !! l.
Proof.
  intros Hr H Hl Hu.
  cut (registry_inv s' ∧ (l < length (heap s'))%nat ∧ unregistered s' l ∧
       heap s' !! l = heap s !! l); [by intros (_ & _ & _ & ?)|].
  refine (exec_ind (λ s', registry_inv s' ∧ (l < length (heap s'))%nat ∧
                          unregistered s' l ∧ heap s' !! l = heap s !! l)
            _ evs s s' _ H); [|done].
  intros e s1 s2 (Hr1 & Hl1 & Hu1 & Hh1) Hs.
  destruct (step_unregistered _ _ _ _ Hr1 Hs Hl1 Hu1) as [? Hh2].
  split_and!; eauto using registry_inv_step.
  - pose proof (step_heap_length _ _ _ Hs). lia.
  - congruence.
Qed.

(** ** The receive queue within one epoch *)

(** Between the creation of the queues and the next disconnect event,
    what [_get_message] returns is what stood first in the receive queue,
    and what the queue gains is added at its end. *)
Lemma step_epoch_stream e s s' :
  run_inv s → in_epoch s → e ≠ Disconnected → step e s = Some s' →
  in_epoch s' ∧
  ∃ d later, delivered s' = delivered s ++ d ∧
             d.*2 ++ queued s' = queued s ++ later ∧
             ∀ x, x ∈ later → ∃ m, x = QMessage m ∧ e = Recv m.
Proof.
  intros Hr He Hne H. unfold in_epoch, queued, run_inv, has_queues in *.
  step_inv H; try done;
    try (by destruct_or?; simplify_eq);
    try (split; [tauto|]; exists [], []; rewrite !app_nil_r;
         split; [done|]; split; [done|]; by intros x ?%elem_of_nil);
    repeat match goal with
           | H : _recv_queue s = _ |- _ => rewrite H in *; clear H
           | H : pc s = _ |- _ => rewrite H in *; clear H
           end;
    try (split; [tauto|]; eexists _, _;
         split; [first [reflexivity | symmetry; apply app_nil_r]|];
         simpl;
         split; [first [reflexivity | symmetry; apply app_nil_r
                       | f_equal; symmetry; apply app_nil_r]|];
         intros x Hx;
         first [by apply elem_of_nil in Hx
               | apply list_elem_of_singleton in Hx as ->; eauto]).
  (* Callback, _get_message without a queue: there is one in an epoch *)
  destruct Hr as (_ & _ & [_ [? ?]] & _). done.
Qed.

Lemma exec_epoch_stream evs s s' :
  run_inv s → in_epoch s → Disconnected ∉ evs → exec s evs = Some s' →
  in_epoch s' ∧
  ∃ d later, delivered s' = delivered s ++ d ∧
             d.*2 ++ queued s' = queued s ++ later ∧
             ∀ x, x ∈ later → ∃ m, x = QMessage m ∧ Recv m ∈ evs.
Proof.
  revert s. induction evs as [|e evs IH]; intros s Hr He Hn H; simpl in H.
  - simplify_eq. split; [done|]. exists [], []. rewrite !app_nil_r.
    split; [done|]. split; [done|]. by intros x ?%elem_of_nil.
  - apply not_elem_of_cons in Hn as [Hne Hn].
    destruct (step e s) as [s1|] eqn:Hs; [|done].
    destruct (step_epoch_stream _ _ _ Hr He (not_eq_sym Hne) Hs)
      as (He1 & d1 & later1 & Hd1 & Hq1 & Hl1).
    destruct (IH s1) as (He' & d2 & later2 & Hd2 & Hq2 & Hl2);
      eauto using run_inv_step.
    split; [done|]. exists (d1 ++ d2), (later1 ++ later2). split_and!.
    + by rewrite Hd2, Hd1, app_assoc.
    + rewrite fmap_app, <- app_assoc, Hq2, !app_assoc. by rewrite Hq1.
    + intros x [Hx|Hx]%elem_of_app.
      * destruct (Hl1 x Hx) as (m & -> & ->). exists m. split; [done|].
        by left.
      * destruct (Hl2 x Hx) as (m & -> & ?). exists m. split; [done|].
        by right.
Qed.

(** ** The caller threads *)

(** A thread stands where it is until its own next event. *)
Lemma step_thread_frame e s s' t :
  step e s = Some s' → ¬ event_of t e → threads s' !! t = threads s !! t.
Proof.
  intros H Hn. step_inv H; try done; by rewrite lookup_insert_ne.
Qed.

(** * The claims *)

(** ** Calls made while the stream is not ready *)

(** C2: a call of [send] or [send_back] made while the event is not set
    raises [ValidatorConnectionError] at once, in the one step of the test:
    the thread is left with the exception and nothing else of the stream
    changes, so that no future is created or entered in the collection,
    nothing is handed to the loop or put on the send queue, and nothing is
    written to a socket. *)
Theorem send_not_ready_raises (s : State) (t : nat) (e : Event) :
  is_ready s = false → idle t s = true →
  (∃ message_type content, e = Send t message_type content) ∨
  (∃ message_type correlation_id content,
      e = SendBack t message_type correlation_id content) →
  ∃ s', step e s = Some s' ∧
        s' = at_point t (Done ValidatorConnectionError) s ∧
        threads s' !! t = Some (Done ValidatorConnectionError) ∧
        _futures s' = _futures s ∧ heap s' = heap s ∧
        callbacks s' = callbacks s ∧ _send_queue s' = _send_queue s ∧
        wire s' = wire s.
Proof.
  unfold is_ready. intros Hr Hi He.
  exists (at_point t (Done ValidatorConnectionError) s).
  split; [|split; [done|]].
  - destruct He as [(mt & c & ->)|(mt & cid & c & ->)]; simpl; rewrite Hi.
    + unfold send_enter. by rewrite Hr.
    + unfold send_back_enter. by rewrite Hr.
  - unfold at_point. simpl. by rewrite lookup_insert_eq.
Qed.

Lemma send_not_ready_raises_witness :
  is_ready (after dropped) = false ∧ idle 2 (after dropped) = true ∧
  ∃ s', step (SendBack 2 4 "v9" ping) (after dropped) = Some s' ∧
        s' = at_point 2 (Done ValidatorConnectionError) (after dropped) ∧
        threads s' !! 2%nat = Some (Done ValidatorConnectionError) ∧
        _futures s' = _futures (after dropped) ∧
        heap s' = heap (after dropped) ∧
        callbacks s' = callbacks (after dropped) ∧
        _send_queue s' = _send_queue (after dropped) ∧
        wire s' = wire (after dropped).
Proof.
  split; [reflexivity|]. split; [reflexivity|].
  apply (send_not_ready_raises (after dropped) 2 (SendBack 2 4 "v9" ping));
    [reflexivity|reflexivity|].
  right. by exists 4, "v9", ping.
Defined.

(** C10: [put_message] called while the event is not set returns in the one
    step of its test: the call that made it ends with what it was going to
    return, not with an exception, and the message is neither handed to
    the loop nor put on the send queue nor written to a socket.  So it goes
    in the execution [dropped]: thread 1 passed the test of [send], the
    disconnect event came, and [send] returned a future, pending, whose
    message is nowhere. *)
Theorem put_message_not_ready :
  (∀ (s : State) (t : nat) (message : Message) (ret : Returned),
     threads s !! t = Some (InPutMessage message ret) →
     is_ready s = false →
     ∃ s', step (PutMessage t) s = Some s' ∧
           s' = at_point t (Done ret) s ∧
           threads s' !! t = Some (Done ret) ∧
           callbacks s' = callbacks s ∧ _send_queue s' = _send_queue s ∧
           wire s' = wire s) ∧
  (∃ s0 s,
     exec (init validator) accepted = Some s0 ∧
     is_ready s0 = true ∧ threads s0 !! 1%nat = Some (InSend 7 ping) ∧
     exec (init validator) dropped = Some s ∧
     threads s !! 1%nat = Some (Done (ReturnFuture 0)) ∧
     future_at s 0 = Some (new "c1") ∧
     callbacks s = [] ∧ _send_queue s = None ∧ wire s = []).
Proof.
  split.
  - unfold is_ready. intros s t message ret Ht Hr.
    exists (at_point t (Done ret) s). split; [|split; [done|]].
    + simpl. rewrite Ht. unfold put_message_enter. by rewrite Hr.
    + unfold at_point. simpl. by rewrite lookup_insert_eq.
  - eexists _, _. split; [by vm_compute|].
    split; [done|]. split; [done|]. split; [by vm_compute|]. done.
Qed.

Lemma put_message_not_ready_witness :
  let s := after (accepted ++ [Disconnected; SendRegister 1 "c1"]) in
  threads s !! 1%nat =
    Some (InPutMessage (mkMessage 7 "c1" ping) (ReturnFuture 0)) ∧
  is_ready s = false ∧
  ∃ s', step (PutMessage 1) s = Some s' ∧
        s' = at_point 1 (Done (ReturnFuture 0)) s ∧
        threads s' !! 1%nat = Some (Done (ReturnFuture 0)) ∧
        callbacks s' = callbacks s ∧ _send_queue s' = _send_queue s ∧
        wire s' = wire s.
Proof.
  intros s. split; [reflexivity|]. split; [reflexivity|].
  apply (proj1 put_message_not_ready s 1%nat (mkMessage 7 "c1" ping)
           (ReturnFuture 0)); reflexivity.
Defined.

(** ** A call of send on a ready stream *)




(** ** A pass of run *)

(** C7: a pass of [run] from the top of its loop.  The socket is a new
    one, whose identity is the first sixteen characters of the id generated
    in this pass, with no linger, connected to the validator and monitored;
    the two queues are new, none was there before; the three coroutines are
    made tasks of the loop, which had none; and up to there the event is as
    it was: it is set by the step that follows. *)
Theorem connecting_pass (s : State) (generated : string) :
  reachable s → pc s = AtLoopTop →
  let i := length (sockets s) in
  ∃ s3 s4 k,
    exec s [Connect generated; Queues; EnsureFuture] = Some s3 ∧
    step SetReady s3 = Some s4 ∧
    sockets s !! i = None ∧ _sock s3 = Some i ∧ sockets s3 !! i = Some k ∧
    identity k = String.substring 0 16 generated ∧
    linger k = Some 0 ∧
    connected_to k = Some (String.append "tcp://" (_url s)) ∧
    monitored k = true ∧ closed k = false ∧
    _monitor_sock s3 = Some i ∧
    no_queues s ∧ _send_queue s3 = Some [] ∧
    _recv_queue s3 = Some (if first_time s then [] else [RECONNECT_EVENT]) ∧
    tasks s = [] ∧ tasks s3 = all_tasks ∧
    is_ready s3 = is_ready s ∧
    (first_time s = false → is_ready s3 = false) ∧
    s4 = run_set_ready s3 ∧ is_ready s4 = true ∧ pc s4 = AtRunForever.
Proof.
  intros [_ Hr]%reachable_inv Hpc i. unfold run_inv in Hr.
  rewrite Hpc in Hr. destruct Hr as (Ht & _ & Hq & Hf).
  eexists _, _, _. split.
  { simpl. rewrite Hpc. simpl. reflexivity. }
  split; [reflexivity|]. unfold is_ready. simpl. rewrite Ht.
  split; [by apply lookup_ge_None|]. split; [done|].
  split; [by apply list_lookup_middle|]. simpl.
  split_and!; try done.
  destruct (_ready_event s); [|done].
  destruct Hf; congruence.
Qed.

Lemma connecting_pass_witness :
  let s := after (dropped ++ [RunForeverReturns]) in
  let generated := "77b1e0c4f5a29d63bc" in
  reachable s ∧ pc s = AtLoopTop ∧
  let i := length (sockets s) in
  ∃ s3 s4 k,
    exec s [Connect generated; Queues; EnsureFuture] = Some s3 ∧
    step SetReady s3 = Some s4 ∧
    sockets s !! i = None ∧ _sock s3 = Some i ∧ sockets s3 !! i = Some k ∧
    identity k = String.substring 0 16 generated ∧
    linger k = Some 0 ∧
    connected_to k = Some (String.append "tcp://" (_url s)) ∧
    monitored k = true ∧ closed k = false ∧
    _monitor_sock s3 = Some i ∧
    no_queues s ∧ _send_queue s3 = Some [] ∧
    _recv_queue s3 = Some (if first_time s then [] else [RECONNECT_EVENT]) ∧
    tasks s = [] ∧ tasks s3 = all_tasks ∧
    is_ready s3 = is_ready s ∧
    (first_time s = false → is_ready s3 = false) ∧
    s4 = run_set_ready s3 ∧ is_ready s4 = true ∧ pc s4 = AtRunForever.
Proof.
  intros s generated.
  assert (Hs : reachable s).
  { exists validator, (dropped ++ [RunForeverReturns]).
    vm_compute. reflexivity. }
  split; [exact Hs|]. split; [vm_compute; reflexivity|].
  apply (connecting_pass s generated Hs). vm_compute. reflexivity.
Defined.

Lemma reachable_first_inv s : reachable s → first_inv s.
Proof.
  intros (url & evs & H).
  refine (exec_ind first_inv _ evs _ _ (first_inv_init url) H).
  intros. by eapply first_inv_step.
Qed.

(** C6: on a pass of [run] that comes after the first connection, at the
    point where the queues are created.  [first_time] is false there; the
    new receive queue holds [RECONNECT_EVENT] and nothing else while the loop
    has no task yet, the coroutines being scheduled by the step that
    follows; and until the next disconnect event, what [_get_message] has
    returned since this point, followed by what is still queued, is
    [RECONNECT_EVENT] followed by messages received since: the marker is
    read before any message of the new connection, and no message of the
    connection before is read after it. *)
Theorem reconnect_marker (s : State) :
  reachable s → pc s = AtQueues → (1 < length (sockets s))%nat →
  first_time s = false ∧
  ∃ s1 s2,
    step Queues s = Some s1 ∧
    _recv_queue s1 = Some [RECONNECT_EVENT] ∧ tasks s1 = [] ∧
    delivered s1 = delivered s ∧
    step EnsureFuture s1 = Some s2 ∧
    _recv_queue s2 = Some [RECONNECT_EVENT] ∧ tasks s2 = all_tasks ∧
    ∀ evs s',
      Disconnected ∉ evs → exec s1 evs = Some s' →
      ∃ later,
        delivered_since (length (delivered s)) s' ++ queued s' =
        RECONNECT_EVENT :: later ∧
        ∀ x, x ∈ later → ∃ m, x = QMessage m ∧ Recv m ∈ evs.
Proof.
  intros Hreach Hpc Hn.
  pose proof (reachable_first_inv _ Hreach) as Hf.
  pose proof (reachable_inv _ Hreach) as [_ Hr].
  assert (Hft : first_time s = false).
  { destruct (first_time s) eqn:E; [|done].
    unfold first_inv in Hf. rewrite Hpc in Hf.
    destruct (Hf E) as [? _]. lia. }
  split; [done|].
  assert (Hs1 : step Queues s = Some (run_queues s)).
  { simpl. by rewrite Hpc. }
  pose proof (run_inv_step _ _ _ Hr Hs1) as Hr1.
  exists (run_queues s), (run_ensure_future (run_queues s)).
  unfold run_inv in Hr. rewrite Hpc in Hr. destruct Hr as (Ht & _).
  split; [done|]. unfold run_queues at 1 2 3. simpl. rewrite Hft, Ht.
  split; [done|]. split; [done|]. split; [done|]. split; [done|].
  split; [done|]. split; [done|].
  intros evs s' Hne Hex.
  destruct (exec_epoch_stream evs (run_queues s) s' Hr1) as
    (_ & d & later & Hd & Hq & Hl); [by left|done|done|].
  exists later. split; [|done]. unfold delivered_since. rewrite Hd. simpl.
  rewrite drop_app_length. rewrite Hq. unfold queued. simpl.
  by rewrite Hft.
Qed.

Lemma reconnect_marker_witness :
  let s := after (dropped ++ [RunForeverReturns;
                              Connect "77b1e0c4f5a29d63bc"]) in
  reachable s ∧ pc s = AtQueues ∧ (1 < length (sockets s))%nat ∧
  first_time s = false ∧
  ∃ s1 s2,
    step Queues s = Some s1 ∧
    _recv_queue s1 = Some [RECONNECT_EVENT] ∧ tasks s1 = [] ∧
    delivered s1 = delivered s ∧
    step EnsureFuture s1 = Some s2 ∧
    _recv_queue s2 = Some [RECONNECT_EVENT] ∧ tasks s2 = all_tasks ∧
    ∀ evs s',
      Disconnected ∉ evs → exec s1 evs = Some s' →
      ∃ later,
        delivered_since (length (delivered s)) s' ++ queued s' =
        RECONNECT_EVENT :: later ∧
        ∀ x, x ∈ later → ∃ m, x = QMessage m ∧ Recv m ∈ evs.
Proof.
  intros s.
  assert (Hs : reachable s).
  { exists validator,
      (dropped ++ [RunForeverReturns; Connect "77b1e0c4f5a29d63bc"]).
    vm_compute. reflexivity. }
  split; [exact Hs|]. split; [vm_compute; reflexivity|].
  split; [vm_compute; lia|].
  apply (reconnect_marker s Hs); [vm_compute; reflexivity|vm_compute; lia].
Defined.

(** ** The disconnect event *)

Lemma step_disconnected s s' :
  step Disconnected s = Some s' →
  pc s = InRunForever ∧ is_ready s' = false ∧ _futures s' = _futures s ∧
  heap s' =
    fail_all (FutureCollection.future_values (_futures s)) (heap s) ∧
  pc s' = Stopping.
Proof.
  intros H. unfold is_ready. by step_inv H.
Qed.

(** C4: the step of [_monitor_disconnects] that follows a disconnect
    event clears the event and fails every future that the collection
    holds and that is pending; such a future is failed in every state from
    there on, so when the event is next set and when any later [send]
    passes its test. *)
Theorem disconnect_fails_pending (s s' : State) :
  step Disconnected s = Some s' →
  is_ready s' = false ∧
  ∀ c l,
    _futures s !! c = Some l → state_at s l = Some Pending →
    state_at s' l = Some Failed ∧
    ∀ evs s'', exec s' evs = Some s'' → state_at s'' l = Some Failed.
Proof.
  intros (_ & Hr & _ & Hh & _)%step_disconnected. split; [done|].
  intros c l Hc Hp.
  assert (Hf : state_at s' l = Some Failed).
  { unfold state_at in *. rewrite Hh.
    destruct (fail_all_lookup (FutureCollection.future_values (_futures s))
                (heap s) l) as (k & -> & Hk).
    destruct (heap s !! l) as [f|]; [|done]. simpl in *.
    assert (0 < k)%nat as Hpos.
    { apply Hk, elem_of_future_values. by exists c. }
    f_equal. unfold state in *. simpl.
    destruct (resolutions f) as [|? ?]; [|by destruct o].
    destruct k; [lia|done]. }
  split; [done|]. intros evs s'' Hex. by eapply exec_state_stable.
Qed.

Lemma disconnect_fails_pending_witness :
  let s := after (connect "3f0a9c51d27be846aa" ++
                  [Send 1 7 ping; SendRegister 1 "c1"]) in
  ∃ s', step Disconnected s = Some s' ∧
        is_ready s' = false ∧
        ∀ c l,
          _futures s !! c = Some l → state_at s l = Some Pending →
          state_at s' l = Some Failed ∧
          ∀ evs s'', exec s' evs = Some s'' → state_at s'' l = Some Failed.
Proof.
  intros s. exists (_monitor_disconnects s).
  assert (H : step Disconnected s = Some (_monitor_disconnects s)).
  { vm_compute. reflexivity. }
  split; [exact H|]. exact (disconnect_fails_pending s _ H).
Defined.

(** C5: that step leaves the collection as it was, every entry in place.
    So it goes in the execution [next_epoch]: the future of the request is
    failed, the stream is connected again and ready, and the collection
    still holds the entry; a second disconnect event, in [failed_twice],
    gives the same future a second error. *)
Theorem disconnect_keeps_registry :
  (∀ s s', step Disconnected s = Some s' → _futures s' = _futures s) ∧
  (∃ s,
     exec (init validator) next_epoch = Some s ∧
     is_ready s = true ∧ pc s = InRunForever ∧
     _futures s = {["c1" := 0%nat]} ∧ _futures s ≠ ∅ ∧
     state_at s 0 = Some Failed) ∧
  (∃ s,
     exec (init validator) failed_twice = Some s ∧
     _futures s = {["c1" := 0%nat]} ∧
     resolutions_at s 0 = Some [FutureError; FutureError]).
Proof.
  split; [|split].
  - by intros s s' (_ & _ & ? & _)%step_disconnected.
  - eexists. split; [by vm_compute|]. split; [done|]. split; [done|].
    split; [by vm_compute|]. split; [|done].
    intros H. apply (f_equal (λ m : gmap string nat, m !! "c1")) in H.
    by vm_compute in H.
  - eexists. split; [by vm_compute|]. split; by vm_compute.
Qed.

(** ** Readiness *)

(** C9, as it is stated, fails on a stream that has just been created:
    [Stream.__init__] sets the event, and [send] passes its test, with no
    socket opened yet and no coroutine scheduled. *)
Lemma ready_before_first_connection :
  reachable (init validator) ∧
  is_ready (init validator) = true ∧
  sockets (init validator) = [] ∧ _sock (init validator) = None ∧
  tasks (init validator) = [] ∧ ¬ connected (init validator) ∧
  ∃ s, exec (init validator) [Send 1 7 ping] = Some s ∧
       threads s !! 1%nat = Some (InSend 7 ping).
Proof.
  split; [by exists validator, []|]. split_and!; try done.
  - by intros (i & k & ? & _).
  - eexists. split; [by vm_compute|]. by vm_compute.
Qed.

(** C9, amended: the event is set from the creation of the stream to the
    first disconnect event, and so before the first connection is there;
    apart from that first pass of [run] it is set exactly while the socket
    is connected, the queues are there, the three coroutines are tasks of
    the loop and [run] stands at or inside [run_forever]; it is not set
    from a disconnect event to the next [set] of [run]. *)
Theorem readiness (s : State) :
  reachable s →
  (is_ready s = true ↔ in_first_setup s ∨ active s) ∧
  (is_ready s = false ↔ in_reconnect_window s).
Proof.
  intros Hreach.
  pose proof (reachable_first_inv _ Hreach) as Hf.
  pose proof (reachable_inv _ Hreach) as [_ Hr].
  unfold is_ready, in_first_setup, active, in_reconnect_window, first_inv,
    run_inv in *.
  destruct (pc s) eqn:Hpc, (first_time s) eqn:Hft,
    (_ready_event s) eqn:Hre;
    destruct_and?;
    repeat match goal with
           | H : true = true → _ |- _ => specialize (H eq_refl)
           end;
    destruct_and?; simplify_eq;
    (split; split; intros; destruct_or?; destruct_and?; destruct_or?;
     simplify_eq; try done; try congruence; try tauto).
Qed.

Lemma readiness_witness :
  let s := after dropped in
  reachable s ∧
  (is_ready s = true ↔ in_first_setup s ∨ active s) ∧
  (is_ready s = false ↔ in_reconnect_window s).
Proof.
  intros s.
  assert (Hs : reachable s).
  { exists validator, dropped. vm_compute. reflexivity. }
  split; [exact Hs|]. exact (readiness s Hs).
Defined.

(** ** Messages that are not responses *)

(** Without a message from the socket, the receive queue gains nothing
    but markers. *)
Lemma step_only_markers e s s' :
  only_markers s → (∀ m, e ≠ Recv m) → step e s = Some s' →
  only_markers s'.
Proof.
  intros [Hd Hq] Hne H. unfold only_markers, queued in *.
  step_inv H; try done;
    repeat match goal with
           | H : _recv_queue s = _ |- _ => rewrite H in *; clear H
           end; simpl in *;
    try (by repeat constructor);
    try (by edestruct Hne).
  (* _get_message returns the first item of the queue *)
  all: inversion Hq; subst; split; [|done].
  all: rewrite fmap_app; apply Forall_app; split; [done|].
  all: by repeat constructor.
Qed.

Lemma exec_only_markers evs s s' :
  only_markers s → (∀ m, Recv m ∉ evs) → exec s evs = Some s' →
  only_markers s'.
Proof.
  revert s. induction evs as [|e evs IH]; intros s Ho Hn H; simpl in H.
  - by simplify_eq.
  - destruct (step e s) as [s1|] eqn:Hs; [|done].
    apply (IH s1); [|intros m Hm; apply (Hn m); by right|done].
    eapply step_only_markers; [done| |done].
    intros m ->. apply (Hn m). by left.
Qed.

(** C3, as it is stated, fails in the execution [lost_unread]: a message
    whose id the collection does not hold is put on the receive queue; the
    connection is lost before a thread has asked for it; the queue of the
    next connection holds the marker, which is what [receive] then gets;
    and without the validator sending it again the message is never
    returned by [receive]. *)
Lemma unsolicited_lost :
  ∃ s0 s1 s2,
    exec (init validator) (connect "3f0a9c51d27be846aa") = Some s0 ∧
    _futures s0 !! correlation_id unsolicited = None ∧
    step (Recv unsolicited) s0 = Some s1 ∧
    _recv_queue s1 = Some [QMessage unsolicited] ∧
    exec (init validator) lost_unread = Some s2 ∧
    delivered s2 = [(2%nat, RECONNECT_EVENT)] ∧ _recv_queue s2 = Some [] ∧
    ∀ evs s3,
      (∀ m, Recv m ∉ evs) → exec s2 evs = Some s3 →
      ∀ t, (t, QMessage unsolicited) ∉ delivered s3.
Proof.
  eexists _, _, _. split; [by vm_compute|]. split; [done|].
  split; [by vm_compute|]. split; [done|]. split; [by vm_compute|].
  split; [done|]. split; [done|].
  intros evs s3 Hn Hex t Hin.
  eapply exec_only_markers in Hex as [Hd _]; [|by repeat constructor|done].
  rewrite Forall_forall in Hd.
  specialize (Hd (QMessage unsolicited)). 
  assert (QMessage unsolicited ∈ (delivered s3).*2) as Hin'.
  { apply list_elem_of_fmap. by exists (t, QMessage unsolicited). }
  by apply Hd in Hin'.
Qed.

(** C3, amended: a message whose correlation id the collection does not
    hold is appended as it is to the receive queue of the connection, and
    no future and no entry of the collection is touched.  Until the next
    disconnect event the queue is read in order: what [_get_message]
    returns from there on, followed by what is still queued, is what was
    queued before, then the message, then what has come after it.  (The
    disconnect event discards the queue with what is still on it.) *)
Theorem unsolicited_message (s s' : State) (message : Message) :
  reachable s →
  _futures s !! correlation_id message = None →
  step (Recv message) s = Some s' →
  ∃ q,
    _recv_queue s = Some q ∧
    _recv_queue s' = Some (q ++ [QMessage message]) ∧
    heap s' = heap s ∧ _futures s' = _futures s ∧
    delivered s' = delivered s ∧
    ∀ evs s'',
      Disconnected ∉ evs → exec s' evs = Some s'' →
      ∃ d later,
        delivered s'' = delivered s ++ d ∧
        d.*2 ++ queued s'' = q ++ [QMessage message] ++ later ∧
        ∀ x, x ∈ later → ∃ m, x = QMessage m ∧ Recv m ∈ evs.
Proof.
  intros Hreach Hmiss H.
  pose proof (reachable_inv _ Hreach) as [_ Hr].
  pose proof (run_inv_step _ _ _ Hr H) as Hr'.
  assert (pc s = InRunForever ∧ _ready_event s = true ∧
          ∃ q, _recv_queue s = Some q) as (Hpc & Hre & q & Hq).
  { clear Hr'. unfold run_inv in Hr. step_inv H;
      repeat match goal with
             | H : pc s = _ |- _ => rewrite H in *
             end; destruct Hr as (_ & _ & [_ [? ?]] & ?); eauto; congruence. }
  assert (s' = set_recv_queue (Some (q ++ [QMessage message])) s) as ->.
  { simpl in H. destruct (running ReceiveMessage s); [|done].
    unfold _receive_message, FutureCollection.set_result in H.
    rewrite Hre, Hmiss, Hq in H. simpl in H. congruence. }
  exists q. simpl. split_and!; try done.
  intros evs s'' Hn Hex.
  destruct (exec_epoch_stream evs _ s'' Hr')
    as (_ & d & later & Hd & Hl & Hin); [by repeat right|done|done|].
  exists d, later. split; [done|]. split; [|done].
  rewrite Hl. unfold queued. simpl. by rewrite <- app_assoc.
Qed.

Lemma unsolicited_message_witness :
  let s := after (connect "3f0a9c51d27be846aa") in
  reachable s ∧ _futures s !! correlation_id unsolicited = None ∧
  ∃ s', step (Recv unsolicited) s = Some s' ∧
  ∃ q,
    _recv_queue s = Some q ∧
    _recv_queue s' = Some (q ++ [QMessage unsolicited]) ∧
    heap s' = heap s ∧ _futures s' = _futures s ∧
    delivered s' = delivered s ∧
    ∀ evs s'',
      Disconnected ∉ evs → exec s' evs = Some s'' →
      ∃ d later,
        delivered s'' = delivered s ++ d ∧
        d.*2 ++ queued s'' = q ++ [QMessage unsolicited] ++ later ∧
        ∀ x, x ∈ later → ∃ m, x = QMessage m ∧ Recv m ∈ evs.
Proof.
  intros s.
  assert (Hs : reachable s).
  { exists validator, (connect "3f0a9c51d27be846aa").
    vm_compute. reflexivity. }
  assert (Hm : _futures s !! correlation_id unsolicited = None).
  { vm_compute. reflexivity. }
  assert (H : step (Recv unsolicited) s =
              Some (_receive_message unsolicited s)).
  { vm_compute. reflexivity. }
  split; [exact Hs|]. split; [exact Hm|].
  exists (_receive_message unsolicited s). split; [exact H|].
  exact (unsolicited_message s _ unsolicited Hs Hm H).
Defined.

(** ** The resolution of a future *)

(** A pending future that the collection holds under one id at most stays
    pending as long as there is neither a disconnect event nor a message
    with that id. *)
Lemma step_pending e s s' c l :
  registry_inv s →
  (∀ c', _futures s !! c' = Some l → c' = c) →
  (l < length (heap s))%nat → resolutions_at s l = Some [] →
  step e s = Some s' →
  e ≠ Disconnected → (∀ m, e = Recv m → correlation_id m ≠ c) →
  (∀ c', _futures s' !! c' = Some l → c' = c) ∧
  resolutions_at s' l = Some [].
Proof.
  intros [Hv Hi] Hc Hl Hp H Hd Hm. unfold resolutions_at in *.
  step_inv H; try done.
  - (* SendRegister *)
    split.
    + intros c'. rewrite lookup_insert. case_decide; [|by auto].
      intros ?. simplify_eq. lia.
    + by rewrite lookup_app_l.
  - (* Recv, a response to another request *)
    split.
    + intros c' [_ ?]%lookup_delete_Some. auto.
    + rewrite heap_set_result_ne; [done|].
      intros ->. by eapply Hm; eauto.
Qed.

Lemma exec_pending evs s s' c l :
  registry_inv s →
  (∀ c', _futures s !! c' = Some l → c' = c) →
  (l < length (heap s))%nat → resolutions_at s l = Some [] →
  Disconnected ∉ evs → (∀ m, Recv m ∈ evs → correlation_id m ≠ c) →
  exec s evs = Some s' →
  resolutions_at s' l = Some [].
Proof.
  revert s. induction evs as [|e evs IH];
    intros s Hr Hc Hl Hp Hd Hm H; simpl in H.
  - by simplify_eq.
  - destruct (step e s) as [s1|] eqn:Hs; [|done].
    apply not_elem_of_cons in Hd as [Hne Hd].
    destruct (step_pending e s s1 c l) as [Hc1 Hp1]; try done.
    { intros m ->. apply Hm. by left. }
    apply (IH s1); try done.
    + by eapply registry_inv_step.
    + pose proof (step_heap_length _ _ _ Hs). lia.
    + intros m Hin. apply Hm. by right.
Qed.

(** C1, as it is stated, fails in the execution [reconnected]: [send]
    passed its test and returned a future, which the collection holds,
    but the disconnect event came before the future was entered and
    [put_message] dropped the message, which is on no queue and was never
    written to a socket.  The stream is connected again and ready, and
    as long as the connection is not lost once more and the validator
    does not send a message with that id, the future stays pending. *)
Lemma send_never_resolved :
  ∃ s,
    exec (init validator) reconnected = Some s ∧
    threads s !! 1%nat = Some (Done (ReturnFuture 0)) ∧
    _futures s !! "c1" = Some 0%nat ∧ resolutions_at s 0 = Some [] ∧
    is_ready s = true ∧
    callbacks s = [] ∧ _send_queue s = Some [] ∧ wire s = [] ∧
    ∀ evs s',
      Disconnected ∉ evs →
      (∀ m, Recv m ∈ evs → correlation_id m ≠ "c1") →
      exec s evs = Some s' →
      resolutions_at s' 0 = Some [] ∧ state_at s' 0 = Some Pending.
Proof.
  exists (after reconnected).
  assert (Hfut : _futures (after reconnected) = {["c1" := 0%nat]}).
  { vm_compute. reflexivity. }
  assert (Hheap : heap (after reconnected) = [new "c1"]).
  { vm_compute. reflexivity. }
  split; [vm_compute; reflexivity|].
  split; [vm_compute; reflexivity|].
  split; [by rewrite Hfut|].
  split; [unfold resolutions_at; by rewrite Hheap|].
  split; [vm_compute; reflexivity|].
  split; [vm_compute; reflexivity|].
  split; [vm_compute; reflexivity|].
  split; [vm_compute; reflexivity|].
  intros evs s' Hd Hm Hex.
  eapply (exec_pending evs _ s' "c1" 0%nat) in Hex; try done.
  - split; [done|]. unfold resolutions_at, state_at, state in *.
    destruct (heap s' !! 0%nat) as [f|]; [|done]. simpl in *.
    injection Hex as Hex. by rewrite Hex.
  - unfold registry_inv. rewrite Hfut, Hheap. split.
    + intros c l [_ <-]%lookup_singleton_Some. simpl. lia.
    + intros c1 c2 l [<- _]%lookup_singleton_Some
        [<- _]%lookup_singleton_Some. done.
  - rewrite Hfut. by intros c' [<- _]%lookup_singleton_Some.
  - rewrite Hheap. simpl. lia.
Qed.

(** C1, amended: a future that the collection holds and that is pending
    is given the result of a message with its id when one is received,
    and is then removed from the collection and never resolved again; it
    is given one error when a disconnect event is observed; and it stays
    pending at every other step. *)
Theorem resolution_of_pending (s : State) (c : string) (l : loc) :
  reachable s → _futures s !! c = Some l → resolutions_at s l = Some [] →
  (∀ m s',
     correlation_id m = c → step (Recv m) s = Some s' →
     resolutions_at s' l = Some [FutureResult (message_type m) (content m)] ∧
     _futures s' !! c = None ∧
     ∀ evs s'',
       exec s' evs = Some s'' →
       resolutions_at s'' l =
       Some [FutureResult (message_type m) (content m)]) ∧
  (∀ s',
     step Disconnected s = Some s' →
     resolutions_at s' l = Some [FutureError]) ∧
  (∀ e s',
     step e s = Some s' → e ≠ Disconnected →
     (∀ m, e = Recv m → correlation_id m ≠ c) →
     resolutions_at s' l = Some []).
Proof.
  intros Hreach Hc Hp.
  pose proof (reachable_inv _ Hreach) as [[Hv Hi] Hr].
  assert (∃ f, heap s !! l = Some f ∧ resolutions f = []) as (f & Hf & Hres).
  { unfold resolutions_at in Hp. destruct (heap s !! l) as [f|]; [|done].
    exists f. simpl in Hp. by simplify_eq. }
  split_and!.
  - intros m s' Hm H.
    pose proof (inv_step _ _ _ (conj (conj Hv Hi) Hr) H) as [Hreg' _].
    assert (_ready_event s = true) as Hre.
    { unfold run_inv in Hr. simpl in H. unfold running in H.
      destruct (bool_decide (pc s = InRunForever)) eqn:E; [|done].
      apply bool_decide_eq_true in E. rewrite E in Hr. tauto. }
    assert (s' = set_futures (delete c (_futures s))
                   (set_heap (heap_set_result l
                      (FutureResult (message_type m) (content m)) (heap s))
                      s)) as ->.
    { simpl in H. destruct (running ReceiveMessage s); [|done].
      unfold _receive_message, FutureCollection.set_result,
        FutureCollection.remove in H.
      rewrite Hre, Hm, Hc in H. simpl in H. congruence. }
    assert (Hnow : resolutions_at
              (set_futures (delete c (_futures s))
                 (set_heap (heap_set_result l
                    (FutureResult (message_type m) (content m)) (heap s)) s))
              l = Some [FutureResult (message_type m) (content m)]).
    { unfold resolutions_at. simpl. rewrite heap_set_result_eq, Hf. simpl.
      by rewrite Hres. }
    split; [done|]. split; [simpl; apply lookup_delete_eq|].
    intros evs s'' Hex. unfold resolutions_at in *.
    erewrite exec_unregistered; [exact Hnow|done|done| |].
    + simpl. rewrite heap_set_result_length. eauto.
    + intros c'. simpl. intros [Hne Hc']%lookup_delete_Some.
      apply Hne. eauto.
  - intros s' (_ & _ & _ & Hh & _)%step_disconnected.
    unfold resolutions_at. rewrite Hh.
    erewrite fail_all_once; [| |by apply elem_of_future_values; eauto|done].
    + simpl. by rewrite Hres.
    + by apply NoDup_future_values.
  - intros e s' H Hd Hm.
    eapply (step_pending e s s' c l); eauto.
    split; [done|done].
Qed.

Lemma resolution_of_pending_witness :
  let s := after (connect "3f0a9c51d27be846aa" ++
                  [Send 1 7 ping; SendRegister 1 "c1"]) in
  reachable s ∧ _futures s !! "c1" = Some 0%nat ∧
  resolutions_at s 0 = Some [] ∧
  (∀ m s',
     correlation_id m = "c1" → step (Recv m) s = Some s' →
     resolutions_at s' 0 = Some [FutureResult (message_type m) (content m)] ∧
     _futures s' !! "c1" = None ∧
     ∀ evs s'',
       exec s' evs = Some s'' →
       resolutions_at s'' 0 =
       Some [FutureResult (message_type m) (content m)]) ∧
  (∀ s',
     step Disconnected s = Some s' →
     resolutions_at s' 0 = Some [FutureError]) ∧
  (∀ e s',
     step e s = Some s' → e ≠ Disconnected →
     (∀ m, e = Recv m → correlation_id m ≠ "c1") →
     resolutions_at s' 0 = Some []).
Proof.
  intros s.
  assert (Hs : reachable s).
  { exists validator,
      (connect "3f0a9c51d27be846aa" ++ [Send 1 7 ping; SendRegister 1 "c1"]).
    vm_compute. reflexivity. }
  assert (Hc : _futures s !! "c1" = Some 0%nat).
  { vm_compute. reflexivity. }
  assert (Hp : resolutions_at s 0 = Some []).
  { vm_compute. reflexivity. }
  split; [exact Hs|]. split; [exact Hc|]. split; [exact Hp|].
  exact (resolution_of_pending s "c1" 0%nat Hs Hc Hp).
Defined.

(** * More of the stream *)

(** ** Executions, from their last step *)

Lemma exec_snoc s evs e s' :
  exec s (evs ++ [e]) = Some s' ↔
  ∃ s1, exec s evs = Some s1 ∧ step e s1 = Some s'.
Proof.
  rewrite exec_app. split.
  - destruct (exec s evs) as [s1|]; simpl; [|done].
    destruct (step e s1) as [s2|] eqn:Hs; [|done].
    intros ?. simplify_eq. eauto.
  - intros (s1 & -> & Hs). simpl. by rewrite Hs.
Qed.

(** A property of an execution and the state it leads to, kept by every
    step added at its end. *)
Lemma exec_rev_ind (P : list Event → State → Prop) s0 :
  P [] s0 →
  (∀ evs e s s',
     exec s0 evs = Some s → P evs s → step e s = Some s' →
     P (evs ++ [e]) s') →
  ∀ evs s, exec s0 evs = Some s → P evs s.
Proof.
  intros H0 Hstep evs. induction evs as [|e evs IH] using rev_ind;
    intros s H.
  - simpl in H. by simplify_eq.
  - apply exec_snoc in H as (s1 & H1 & Hs). eauto.
Qed.

(** ** The sockets *)

Lemma substring_length (n : nat) (x : string) :
  (String.length (String.substring 0 n x) ≤ n)%nat.
Proof.
  revert x. induction n as [|n IH]; intros [|a x]; simpl; try lia.
  specialize (IH x). lia.
Qed.

Lemma sockets_inv_step e s s' :
  run_inv s → sockets_inv s → step e s = Some s' → sockets_inv s'.
Proof.
  intros Hr Hs H. unfold sockets_inv in *.
  step_inv H; try done;
    try (intros i k Hk;
         destruct (Hs i k Hk) as (? & ? & ? & ? & Hc); split_and!; try done;
         intros Hcl; specialize (Hc Hcl); congruence).
  - (* Connect: the sockets opened before are closed *)
    unfold run_inv in Hr.
    match goal with H : pc s = _ |- _ => rewrite H in Hr end.
    destruct Hr as (_ & Hnone & _).
    intros i k [[_ Hk]|[-> <-]]%lookup_snoc_Some.
    + destruct (Hs i k Hk) as (? & ? & ? & ? & Hc). split_and!; try done.
      intros Hcl. specialize (Hc Hcl). congruence.
    + simpl. split_and!; try done. apply substring_length.
  - (* Disconnected: the socket of the thread is closed *)
    intros i k Hk.
    match goal with H : _sock s = Some ?n |- _ =>
      destruct (decide (n = i)) as [->|Hne] end.
    + rewrite list_lookup_alter_eq in Hk.
      destruct (sockets s !! i) as [k0|] eqn:Hk0; [|done].
      simpl in Hk. simplify_eq.
      destruct (Hs i k0 Hk0) as (? & ? & ? & ? & _). by split_and!.
    + rewrite list_lookup_alter_ne in Hk by done.
      destruct (Hs i k Hk) as (? & ? & ? & ? & Hc). split_and!; try done.
      intros Hcl. specialize (Hc Hcl). congruence.
Qed.

(** X8: of the sockets that a stream has opened, each has an identity of
    sixteen characters at most, no linger, a monitor, and the address of
    the validator; and every one but the socket that the thread holds has
    been closed, so that one socket at most is open. *)
Theorem sockets_of_a_stream (s : State) :
  reachable s →
  ∀ i k, sockets s !! i = Some k →
    (String.length (identity k) ≤ 16)%nat ∧
    linger k = Some 0 ∧ monitored k = true ∧
    connected_to k = Some (String.append "tcp://" (_url s)) ∧
    (closed k = false → _sock s = Some i).
Proof.
  intros (url & evs & H).
  cut (run_inv s ∧ sockets_inv s); [by intros [_ ?]|].
  refine (exec_ind (λ s, run_inv s ∧ sockets_inv s) _ evs _ _ _ H).
  - intros e s1 s2 [Hr Hs] Hst.
    split; [by eapply run_inv_step|by eapply sockets_inv_step].
  - split; [apply run_inv_init|]. by intros i k ?.
Qed.

Lemma sockets_of_a_stream_witness :
  let s := after next_epoch in
  reachable s ∧
  ∀ i k, sockets s !! i = Some k →
    (String.length (identity k) ≤ 16)%nat ∧
    linger k = Some 0 ∧ monitored k = true ∧
    connected_to k = Some (String.append "tcp://" (_url s)) ∧
    (closed k = false → _sock s = Some i).
Proof.
  intros s.
  assert (Hs : reachable s).
  { exists validator, next_epoch. vm_compute. reflexivity. }
  split; [exact Hs|]. exact (sockets_of_a_stream s Hs).
Defined.

(** ** Futures and the ids they are entered under *)

Lemma keyed_inv_step e s s' :
  keyed_inv s → step e s = Some s' → keyed_inv s'.
Proof.
  intros (K1 & K2 & K3) H.
  assert (Hkeep : ∀ l c,
            (∃ f, heap s !! l = Some f ∧ fut_correlation_id f = c) →
            ∃ f', heap s' !! l = Some f' ∧ fut_correlation_id f' = c).
  { intros l c (f & Hf & <-).
    destruct (step_resolutions _ _ _ _ _ H Hf) as (f' & ? & ? & _). eauto. }
  assert (Hsome : ∀ l, is_Some (heap s !! l) → is_Some (heap s' !! l)).
  { intros l [f Hf].
    destruct (step_resolutions _ _ _ _ _ H Hf) as (f' & ? & _). eauto. }
  unfold keyed_inv.
  step_inv H;
    (split_and!;
     [ intros kc kl Hkc
     | intros kt km kl [Hkt|Hkt]
     | intros kt kl Hkt ]);
    repeat match goal with
           | H : <[_:=_]> _ !! _ = Some _ |- _ =>
               apply lookup_insert_Some in H as [[<- ?]|[? H]]
           | H : delete _ _ !! _ = Some _ |- _ =>
               apply lookup_delete_Some in H as [? H]
           end;
    simplify_eq; eauto 6.
  (* SendRegister: the new future *)
  1,2: eexists; split; [by apply list_lookup_middle|done].
  (* put_message returns: the future of the call *)
  all: match goal with
       | H : threads _ !! ?t = Some (InPutMessage _ (ReturnFuture _)) |- _ =>
           edestruct (K2 t) as (f & Hf & _); [left; exact H|by eexists]
       | H : threads _ !! ?t = Some (InWaitFor _ (ReturnFuture _)) |- _ =>
           edestruct (K2 t) as (f & Hf & _); [right; exact H|by eexists]
       end.
Qed.

Lemma reachable_keyed s : reachable s → keyed_inv s.
Proof.
  intros (url & evs & H).
  refine (exec_ind keyed_inv _ evs _ _ _ H).
  - intros. by eapply keyed_inv_step.
  - split_and!; intros *; simpl; rewrite ?lookup_empty; try done.
    by intros [?|?].
Qed.

(** X4: in every state of a stream, an entry of the collection under an
    id leads to a future that was made for that id; the location that
    [send] is about to return is a future made for the id of the message
    that the thread carries; and a location that [send] has returned is a
    future of the heap. *)
Theorem registry_keyed (s : State) :
  reachable s →
  (∀ c l, _futures s !! c = Some l →
          ∃ f, heap s !! l = Some f ∧ fut_correlation_id f = c) ∧
  (∀ t m l,
     threads s !! t = Some (InPutMessage m (ReturnFuture l)) ∨
     threads s !! t = Some (InWaitFor m (ReturnFuture l)) →
     ∃ f, heap s !! l = Some f ∧ fut_correlation_id f = correlation_id m) ∧
  (∀ t l, threads s !! t = Some (Done (ReturnFuture l)) →
          is_Some (heap s !! l)).
Proof. apply reachable_keyed. Qed.

Lemma registry_keyed_witness :
  let s := after next_epoch in
  reachable s ∧
  (∀ c l, _futures s !! c = Some l →
          ∃ f, heap s !! l = Some f ∧ fut_correlation_id f = c) ∧
  (∀ t m l,
     threads s !! t = Some (InPutMessage m (ReturnFuture l)) ∨
     threads s !! t = Some (InWaitFor m (ReturnFuture l)) →
     ∃ f, heap s !! l = Some f ∧ fut_correlation_id f = correlation_id m) ∧
  (∀ t l, threads s !! t = Some (Done (ReturnFuture l)) →
          is_Some (heap s !! l)).
Proof.
  intros s.
  assert (Hs : reachable s).
  { exists validator, next_epoch. vm_compute. reflexivity. }
  split; [exact Hs|]. exact (registry_keyed s Hs).
Defined.

(** ** Where the outcomes of a future come from *)

Lemma step_outcome_origin e s s' l f' o :
  keyed_inv s → step e s = Some s' →
  heap s' !! l = Some f' → o ∈ resolutions f' →
  (∃ f, heap s !! l = Some f ∧
        fut_correlation_id f = fut_correlation_id f' ∧
        o ∈ resolutions f) ∨
  outcome_origin [e] f' o.
Proof.
  intros (K1 & _ & _) H Hf Ho.
  step_inv H; try (left; by exists f').
  - (* SendRegister: the new future has no outcome *)
    apply lookup_snoc_Some in Hf as [[_ Hf]|[_ <-]]; [left; by exists f'|].
    by apply elem_of_nil in Ho.
  - (* Recv, a response *)
    match goal with H : _futures s !! _ = Some ?n |- _ =>
      destruct (decide (n = l)) as [->|Hne]; [rename H into Hreg|] end.
    + rewrite heap_set_result_eq in Hf.
      destruct (heap s !! l) as [f|] eqn:Hfl; [|done].
      simpl in Hf. simplify_eq. simpl in Ho.
      apply elem_of_app in Ho as [Ho|Ho]; [left; by exists f|].
      apply list_elem_of_singleton in Ho as ->. right.
      destruct (K1 _ _ Hreg) as (f0 & Hf0 & Hc). simplify_eq.
      unfold outcome_origin. simpl.
      rewrite Hc. destruct message. simpl. by left.
    + rewrite heap_set_result_ne in Hf by done. left. by exists f'.
  - (* Disconnected *)
    destruct (fail_all_lookup (FutureCollection.future_values (_futures s))
                (heap s) l) as (k & Hk & _).
    rewrite Hk in Hf. destruct (heap s !! l) as [f|] eqn:Hfl; [|done].
    simpl in Hf. simplify_eq. simpl in *.
    apply elem_of_app in Ho as [Ho|Ho]; [left; by exists f|].
    apply elem_of_replicate in Ho as [-> _]. right. simpl. by left.
  - destruct (fail_all_lookup (FutureCollection.future_values (_futures s))
                (heap s) l) as (k & Hk & _).
    rewrite Hk in Hf. destruct (heap s !! l) as [f|] eqn:Hfl; [|done].
    simpl in Hf. simplify_eq. simpl in *.
    apply elem_of_app in Ho as [Ho|Ho]; [left; by exists f|].
    apply elem_of_replicate in Ho as [-> _]. right. simpl. by left.
Qed.

Lemma outcome_origin_mono evs evs' f f' o :
  fut_correlation_id f = fut_correlation_id f' →
  outcome_origin evs f o → outcome_origin (evs ++ evs') f' o.
Proof.
  unfold outcome_origin. intros ->.
  destruct o; intros ?; apply elem_of_app; by left.
Qed.

(** X5: in an execution of a stream, every outcome that a future has
    been given is either the result of a message that the socket
    delivered in that execution with the correlation id of the future, type
    and content as delivered, or the error of a disconnect event of that
    execution. *)
Theorem outcomes_have_an_origin (url : string) (evs : list Event)
    (s : State) (l : loc) (f : Future) (o : Outcome) :
  exec (init url) evs = Some s →
  heap s !! l = Some f → o ∈ resolutions f →
  outcome_origin evs f o.
Proof.
  intros H. revert l f o.
  refine (exec_rev_ind
            (λ evs s, ∀ l f o, heap s !! l = Some f → o ∈ resolutions f →
                               outcome_origin evs f o)
            (init url) _ _ evs s H).
  - intros l f o Hf. simpl in Hf. by destruct l.
  - intros evs0 e s0 s1 Hex IH Hst l f o Hf Ho.
    assert (keyed_inv s0) as Hk.
    { apply reachable_keyed. by exists url, evs0. }
    destruct (step_outcome_origin _ _ _ _ _ _ Hk Hst Hf Ho)
      as [(f0 & Hf0 & Hc & Ho0)|Hor].
    + eapply outcome_origin_mono; [done|]. by eapply IH.
    + unfold outcome_origin in *.
      destruct o; apply elem_of_app; right; done.
Qed.

Lemma outcomes_have_an_origin_witness :
  let evs := connect "3f0a9c51d27be846aa" ++
             [Send 1 7 ping; SendRegister 1 "c1";
              Recv (mkMessage 8 "c1" ping)] in
  let f := mkFuture "c1" [FutureResult 8 ping] in
  exec (init validator) evs = Some (after evs) ∧
  heap (after evs) !! 0%nat = Some f ∧
  FutureResult 8 ping ∈ resolutions f ∧
  outcome_origin evs f (FutureResult 8 ping).
Proof.
  intros evs f.
  assert (H1 : exec (init validator) evs = Some (after evs)).
  { vm_compute. reflexivity. }
  assert (H2 : heap (after evs) !! 0%nat = Some f).
  { vm_compute. reflexivity. }
  assert (H3 : FutureResult 8 ping ∈ resolutions f).
  { simpl. by left. }
  split; [exact H1|]. split; [exact H2|]. split; [exact H3|].
  exact (outcomes_have_an_origin validator evs _ 0%nat f _ H1 H2 H3).
Defined.

(** ** Where the messages written to the socket come from *)

Lemma submitted_mono s0 evs evs' m :
  submitted s0 evs m → submitted s0 (evs ++ evs') m.
Proof.
  intros (t & pre & s & Hex & Hr & [(post & ->)|(mid & post & -> & Hmid)]);
    exists t, pre, s; (split; [done|]); (split; [done|]).
  - left. exists (post ++ evs'). by rewrite <- app_assoc.
  - right. exists mid, (post ++ evs'). split; [|done].
    rewrite <- app_assoc. simpl. by rewrite <- app_assoc.
Qed.

(** A thread inside [send] was there before the step, which is a step of
    another thread, or the step is its call of [send], which found the
    event set. *)
Lemma step_in_send e s s' t mt c :
  step e s = Some s' → threads s' !! t = Some (InSend mt c) →
  (threads s !! t = Some (InSend mt c) ∧ ¬ event_of t e) ∨
  (e = Send t mt c ∧ is_ready s = true).
Proof.
  intros H Ht. unfold is_ready.
  step_inv H; auto;
    apply lookup_insert_Some in Ht as [[<- ?]|[? Ht]]; simplify_eq; auto;
    left; (split; [done|]); simpl; congruence || tauto.
Qed.

(** A message on its way to the socket was there before the step, or the
    step is the one that built it. *)
Lemma step_outbound e s s' m :
  step e s = Some s' → outbound s' m →
  outbound s m ∨
  (∃ t, e = SendBack t (message_type m) (correlation_id m) (content m) ∧
        is_ready s = true) ∨
  (∃ t, e = SendRegister t (correlation_id m) ∧
        threads s !! t = Some (InSend (message_type m) (content m))).
Proof.
  intros H Ho. unfold outbound, to_send, is_ready in *.
  step_inv H;
    repeat match goal with
           | H : _send_queue s = _ |- _ => rewrite H in *
           | H : callbacks s = _ |- _ => rewrite H in *
           end; simpl in *;
    destruct Ho as [(t0 & c0 & Ht & Hm)|[Hm|[Hm|Hm]]];
    try (apply lookup_insert_Some in Ht as [[<- <-]|[? Ht]]);
    simpl in *; set_unfold;
    try (by destruct_or?; destruct_and?; simplify_eq; eauto 10).
  (* put_message: the message that the thread carries *)
  all: repeat match goal with
              | H : ∃ _, _ |- _ => destruct H
              | H : _ ∧ _ |- _ => destruct H
              end.
  all: destruct_or?; try done; simplify_eq; simpl; try (by eauto 10).
  all: left; left; eexists _, _; (split; [eassumption|]).
  all: simpl; by apply list_elem_of_singleton.
Qed.

(** X1: in an execution of a stream, every message that has been written
    to a socket, and every message on its way there, has the type, the id
    and the content of a message built by one call of that execution, which
    found the event set: a call of [send_back] with that type, id and
    content, or a call of [send] with that type and content in which
    [_generate_id] returned that id. *)
Theorem written_was_submitted (url : string) (evs : list Event) (s : State)
    (m : Message) :
  exec (init url) evs = Some s → outbound s m →
  submitted (init url) evs m.
Proof.
  intros H Ho.
  set (in_send evs s :=
         ∀ t mt c, threads s !! t = Some (InSend mt c) →
           ∃ pre s1 mid,
             exec (init url) pre = Some s1 ∧ is_ready s1 = true ∧
             evs = pre ++ Send t mt c :: mid ∧
             Forall (λ e, ¬ event_of t e) mid).
  cut (in_send evs s ∧ (∀ m, outbound s m → submitted (init url) evs m));
    [intros [_ ?]; auto|].
  clear m Ho.
  refine (exec_rev_ind
            (λ evs s,
               in_send evs s ∧
               (∀ m, outbound s m → submitted (init url) evs m))
            (init url) _ _ evs s H).
  - split.
    + intros t mt c. simpl. by rewrite lookup_empty.
    + intros m [(t & c & Ht & _)|[Hm|[Hm|Hm]]]; simpl in *.
      * by rewrite lookup_empty in Ht.
      * by apply elem_of_nil in Hm.
      * by apply elem_of_nil in Hm.
      * by apply elem_of_nil in Hm.
  - intros evs0 e s0 s1 Hex [IH1 IH2] Hst. split.
    + intros t mt c Ht.
      destruct (step_in_send _ _ _ _ _ _ Hst Ht) as [[Ht0 Hne]|[-> Hr]].
      * destruct (IH1 _ _ _ Ht0) as (pre & s2 & mid & ? & ? & -> & Hmid).
        exists pre, s2, (mid ++ [e]). split_and!; try done.
        -- by rewrite <- app_assoc.
        -- apply Forall_app. split; [done|]. by apply Forall_singleton.
      * exists evs0, s0, []. split_and!; try done.
    + intros m Ho.
      destruct (step_outbound _ _ _ _ Hst Ho)
        as [?|[(t & -> & Hr)|(t & -> & Ht)]].
      * apply submitted_mono. auto.
      * exists t, evs0, s0. split_and!; try done. left. by exists [].
      * destruct (IH1 _ _ _ Ht) as (pre & s2 & mid & ? & ? & -> & Hmid).
        exists t, pre, s2. split_and!; try done. right.
        exists mid, []. split; [|done].
        rewrite <- app_assoc. simpl. done.
Qed.

Lemma written_was_submitted_witness :
  let m := mkMessage 7 "c1" ping in
  exec (init validator) failed_once = Some (after failed_once) ∧
  outbound (after failed_once) m ∧
  submitted (init validator) failed_once m.
Proof.
  intros m.
  assert (H1 : exec (init validator) failed_once = Some (after failed_once)).
  { vm_compute. reflexivity. }
  assert (H2 : outbound (after failed_once) m).
  { right. right. right. vm_compute. by left. }
  split; [exact H1|]. split; [exact H2|].
  exact (written_was_submitted validator failed_once _ m H1 H2).
Defined.

(** ** The send queue within one epoch *)

Lemma gather_cons {A} (f : Event → State → list A) e s s' evs :
  step e s = Some s' → gather f s (e :: evs) = f e s ++ gather f s' evs.
Proof. intros H. simpl. by rewrite H. Qed.

Lemma step_epoch_outbound e s s' :
  run_inv s → in_epoch s → e ≠ Disconnected → step e s = Some s' →
  in_epoch s' ∧ _sock s' = _sock s ∧
  ∃ w, wire s' = wire s ++ w ∧
       w.*2 ++ to_send s' = to_send s ++ started_put e s ∧
       ∀ x, x ∈ w → _sock s = Some x.1.
Proof.
  intros Hr He Hne H. unfold in_epoch, to_send, started_put in *.
  step_inv H; try done;
    try (by destruct_or?; congruence);
    repeat match goal with
           | H : _send_queue s = _ |- _ => rewrite H in *
           | H : callbacks s = _ |- _ => rewrite H in *
           end;
    try (split; [tauto|]; split; [done|]; exists [];
         rewrite ?app_nil_r;
         split; [done|]; split; [done|]; by intros x ?%elem_of_nil);
    try (split; [tauto|]; split; [done|]; eexists [_];
         rewrite ?app_nil_r;
         split; [reflexivity|]; split; [reflexivity|];
         by intros x ->%list_elem_of_singleton).
  (* Callback without a queue: there are two in an epoch *)
  all: unfold run_inv, has_queues in Hr.
  all: match goal with H : pc _ = InRunForever |- _ => rewrite H in Hr end.
  all: destruct Hr as (_ & _ & [[? ?] [? ?]] & _); congruence.
Qed.

(** X2: from a state of a stream between the creation of the queues and
    the next disconnect event, and as long as that event does not come:
    the messages written since, followed by those on the send queue, are
    the messages that were on the send queue followed by the messages of
    the [_put_message]s that the loop has started since, in the order in
    which it started them.  So the messages of the queue are written in
    the order of the queue, each once, none skipped and nothing else; and
    they are written to the socket that the thread holds, which stays the
    same. *)
Theorem written_in_order (s s' : State) (evs : list Event) :
  reachable s → in_epoch s → Disconnected ∉ evs → exec s evs = Some s' →
  in_epoch s' ∧ _sock s' = _sock s ∧
  ∃ w, wire s' = wire s ++ w ∧
       w.*2 ++ to_send s' = to_send s ++ gather started_put s evs ∧
       ∀ x, x ∈ w → _sock s = Some x.1.
Proof.
  intros [_ Hr]%reachable_inv. revert s Hr.
  induction evs as [|e evs IH]; intros s Hr He Hn H.
  - simpl in H. simplify_eq. split; [done|]. split; [done|].
    exists []. simpl. rewrite !app_nil_r.
    split; [done|]. split; [done|]. by intros x ?%elem_of_nil.
  - apply not_elem_of_cons in Hn as [Hne Hn]. simpl in H.
    destruct (step e s) as [s1|] eqn:Hs; [|done].
    rewrite (gather_cons _ _ _ _ _ Hs).
    destruct (step_epoch_outbound _ _ _ Hr He (not_eq_sym Hne) Hs)
      as (He1 & Hk1 & w1 & Hw1 & Hq1 & Hs1).
    destruct (IH s1 (run_inv_step _ _ _ Hr Hs) He1 Hn H)
      as (He' & Hk2 & w2 & Hw2 & Hq2 & Hs2).
    split; [done|]. split; [congruence|].
    exists (w1 ++ w2). split_and!.
    + by rewrite Hw2, Hw1, app_assoc.
    + rewrite fmap_app, <- app_assoc, Hq2, !app_assoc. by rewrite Hq1.
    + intros x [Hx|Hx]%elem_of_app; [auto|].
      rewrite <- Hk1. auto.
Qed.

Lemma written_in_order_witness :
  let s := after (connect "3f0a9c51d27be846aa") in
  let evs := [Send 1 7 ping; SendRegister 1 "c1"; PutMessage 1;
              PutMessageHandoff 1; Callback; SendTurn] in
  reachable s ∧ in_epoch s ∧ (Disconnected ∉ evs) ∧
  ∃ s', exec s evs = Some s' ∧
  in_epoch s' ∧ _sock s' = _sock s ∧
  ∃ w, wire s' = wire s ++ w ∧
       w.*2 ++ to_send s' = to_send s ++ gather started_put s evs ∧
       ∀ x, x ∈ w → _sock s = Some x.1.
Proof.
  intros s evs.
  assert (H0 : reachable s).
  { exists validator, (connect "3f0a9c51d27be846aa").
    vm_compute. reflexivity. }
  assert (H1 : in_epoch s).
  { right. right. right. vm_compute. reflexivity. }
  assert (H2 : Disconnected ∉ evs).
  { unfold evs. rewrite !not_elem_of_cons. split_and!; try done.
    apply not_elem_of_nil. }
  assert (H3 : exec s evs = Some (after (connect "3f0a9c51d27be846aa" ++ evs))).
  { vm_compute. reflexivity. }
  split; [exact H0|]. split; [exact H1|]. split; [exact H2|].
  exists (after (connect "3f0a9c51d27be846aa" ++ evs)). split; [exact H3|].
  exact (written_in_order s _ evs H0 H1 H2 H3).
Defined.

(** ** A call of send_back *)

(** X3: a call of [send_back(message_type, correlation_id, content)] made
    while the event is set and still set when [put_message] tests it.
    The message carries the three arguments as they are; no future is
    made and the collection is as it was; the thread then stands in
    [put_message] with that message, and from any state where it still
    stands there and the loop and the send queue exist, its next step
    hands [_put_message] of the message to the loop and returns
    nothing. *)
Theorem send_back_ready (s : State) (t : nat) (message_type : Z)
    (correlation_id : string) (content : bytes) :
  is_ready s = true → idle t s = true →
  let message := mkMessage message_type correlation_id content in
  ∃ s',
    exec s [SendBack t message_type correlation_id content;
            PutMessage t] = Some s' ∧
    heap s' = heap s ∧ _futures s' = _futures s ∧
    threads s' !! t = Some (InWaitFor message ReturnNone) ∧
    callbacks s' = callbacks s ∧ wire s' = wire s ∧
    _send_queue s' = _send_queue s ∧
    ∀ s1,
      threads s1 !! t = Some (InWaitFor message ReturnNone) →
      _event_loop s1 = true → is_Some (_send_queue s1) →
      ∃ s2,
        step (PutMessageHandoff t) s1 = Some s2 ∧
        callbacks s2 = callbacks s1 ++ [HPut message] ∧
        threads s2 !! t = Some (Done ReturnNone) ∧
        heap s2 = heap s1 ∧ _futures s2 = _futures s1 ∧
        wire s2 = wire s1 ∧ _send_queue s2 = _send_queue s1.
Proof.
  intros Hr Hi message. unfold is_ready in Hr.
  eexists. split.
  - simpl. rewrite Hi. unfold send_back_enter. rewrite Hr. simpl.
    rewrite lookup_insert_eq. unfold put_message_enter, at_point. simpl.
    rewrite Hr. simpl. reflexivity.
  - simpl. split_and!; try done.
    + by rewrite lookup_insert_eq.
    + intros s1 Ht Hl [q Hq]. eexists. split.
      * simpl. rewrite Ht. unfold put_message_handoff.
        rewrite Hl, Hq. reflexivity.
      * simpl. by rewrite lookup_insert_eq.
Qed.

Lemma send_back_ready_witness :
  let s := after (connect "3f0a9c51d27be846aa") in
  let t := 2%nat in
  let message_type := 4 in
  let correlation_id := "v9" in
  let content := ping in
  is_ready s = true ∧ idle t s = true ∧
  let message := mkMessage message_type correlation_id content in
  ∃ s',
    exec s [SendBack t message_type correlation_id content;
            PutMessage t] = Some s' ∧
    heap s' = heap s ∧ _futures s' = _futures s ∧
    threads s' !! t = Some (InWaitFor message ReturnNone) ∧
    callbacks s' = callbacks s ∧ wire s' = wire s ∧
    _send_queue s' = _send_queue s ∧
    ∀ s1,
      threads s1 !! t = Some (InWaitFor message ReturnNone) →
      _event_loop s1 = true → is_Some (_send_queue s1) →
      ∃ s2,
        step (PutMessageHandoff t) s1 = Some s2 ∧
        callbacks s2 = callbacks s1 ++ [HPut message] ∧
        threads s2 !! t = Some (Done ReturnNone) ∧
        heap s2 = heap s1 ∧ _futures s2 = _futures s1 ∧
        wire s2 = wire s1 ∧ _send_queue s2 = _send_queue s1.
Proof.
  intros s t message_type correlation_id content.
  split; [vm_compute; reflexivity|]. split; [vm_compute; reflexivity|].
  apply (send_back_ready s t message_type correlation_id content);
    vm_compute; reflexivity.
Defined.

(** ** Where the items of the receive queue come from *)

Lemma item_origin_mono evs evs' x :
  item_origin evs x → item_origin (evs ++ evs') x.
Proof.
  destruct x; simpl; rewrite !elem_of_app; tauto.
Qed.

(** [first_time] stops being true, and the loop is only stopped, after a
    disconnect event. *)
Lemma step_after_disconnect e s s' :
  step e s = Some s' →
  first_time s' = false ∨ pc s' = Stopping →
  (first_time s = false ∨ pc s = Stopping) ∨ e = Disconnected.
Proof.
  intros H Hs. step_inv H; destruct Hs; auto; try congruence.
Qed.

(** An item read or queued was so before the step, or it is the message
    that the step receives, or the marker that the step queues. *)
Lemma step_item e s s' x :
  step e s = Some s' → x ∈ (delivered s').*2 ++ queued s' →
  x ∈ (delivered s).*2 ++ queued s ∨
  (∃ m, x = QMessage m ∧ e = Recv m) ∨
  (x = RECONNECT_EVENT ∧ e = Queues ∧ first_time s = false).
Proof.
  intros H Hx. unfold queued in *.
  step_inv H; auto;
    repeat match goal with
           | H : _recv_queue s = _ |- _ => rewrite H in *; clear H
           end; simpl in *;
    rewrite ?fmap_app in Hx; simpl in Hx; set_unfold;
    by destruct_or?; destruct_and?; simplify_eq; eauto 10.
Qed.

(** X6: in an execution of a stream, every item that [_get_message] has
    returned to a caller of [receive], and every item of the receive
    queue, is either a message that the socket delivered in that
    execution, as it was delivered, or [RECONNECT_EVENT], and then a
    disconnect event came before in that execution. *)
Theorem read_was_received (url : string) (evs : list Event) (s : State)
    (x : QueueItem) :
  exec (init url) evs = Some s →
  x ∈ (delivered s).*2 ++ queued s →
  item_origin evs x.
Proof.
  intros H Hx.
  cut ((first_time s = false ∨ pc s = Stopping → Disconnected ∈ evs) ∧
       (∀ x, x ∈ (delivered s).*2 ++ queued s → item_origin evs x));
    [intros [_ ?]; auto|].
  clear x Hx.
  refine (exec_rev_ind
            (λ evs s,
               (first_time s = false ∨ pc s = Stopping →
                Disconnected ∈ evs) ∧
               (∀ x, x ∈ (delivered s).*2 ++ queued s →
                     item_origin evs x))
            (init url) _ _ evs s H).
  - split.
    + simpl. by intros [?|?].
    + intros x. simpl. by intros ?%elem_of_nil.
  - intros evs0 e s0 s1 _ [IH1 IH2] Hst. split.
    + intros Hs. apply elem_of_app.
      destruct (step_after_disconnect _ _ _ Hst Hs) as [?| ->];
        [left; auto|right; by left].
    + intros x Hx.
      destruct (step_item _ _ _ _ Hst Hx)
        as [?|[(m & -> & ->)|(-> & -> & Hft)]].
      * apply item_origin_mono. auto.
      * simpl. apply elem_of_app. right. by left.
      * simpl. split; [done|]. apply elem_of_app. left. auto.
Qed.

Lemma read_was_received_witness :
  exec (init validator) lost_unread = Some (after lost_unread) ∧
  RECONNECT_EVENT ∈
    (delivered (after lost_unread)).*2 ++ queued (after lost_unread) ∧
  item_origin lost_unread RECONNECT_EVENT.
Proof.
  assert (H1 : exec (init validator) lost_unread = Some (after lost_unread)).
  { vm_compute. reflexivity. }
  assert (H2 : RECONNECT_EVENT ∈
            (delivered (after lost_unread)).*2 ++ queued (after lost_unread)).
  { vm_compute. by left. }
  split; [exact H1|]. split; [exact H2|].
  exact (read_was_received validator lost_unread _ _ H1 H2).
Defined.

(** ** How many markers *)

Lemma markers_app l1 l2 : markers (l1 ++ l2) = (markers l1 + markers l2)%nat.
Proof. unfold markers. by rewrite filter_app, length_app. Qed.

Lemma markers_cons x l :
  markers (x :: l) =
  ((if decide (x = RECONNECT_EVENT) then 1 else 0) + markers l)%nat.
Proof. unfold markers. rewrite filter_cons. by case_decide. Qed.

Lemma markers_inv_step e s s' :
  markers_inv s → step e s = Some s' → markers_inv s'.
Proof.
  intros [Hm Hl] H.
  step_inv H; unfold markers_inv, marker_due, queued in *; simpl in *;
    repeat match goal with
           | H : _recv_queue s = _ |- _ => rewrite H in *; clear H
           | H : pc s = _ |- _ => rewrite H in *; clear H
           | H : first_time s = _ |- _ => rewrite H in *; clear H
           end; simpl in *;
    try (split; [done|tauto]);
    rewrite ?length_app, ?length_alter, ?fmap_app in *;
    rewrite ?markers_app, ?markers_cons in *; simpl in *;
    change (markers []) with 0%nat in *;
    (split; [|try (intros; lia); try tauto]);
    try lia.
  all: try (intros _; apply Hl; first [by left | by right]).
  all: repeat first [ rewrite markers_app in Hm | rewrite markers_cons in Hm
                    | rewrite markers_app | rewrite markers_cons ].
  all: change (markers []) with 0%nat in *.
  all: try lia.
  (* Connect: after the first time one socket at least was there *)
  destruct (first_time s); simpl; [lia|].
  assert (1 ≤ length (sockets s))%nat by (apply Hl; by left). lia.
Qed.

(** X7: in every state of a stream, the reconnect markers that
    [_get_message] has returned, together with those of the receive queue,
    are no more than the sockets opened after the first one: one marker at
    most for each connection after the first, and none before the stream
    has connected a second time. *)
Theorem markers_bounded (s : State) :
  reachable s →
  (markers ((delivered s).*2 ++ queued s) ≤ length (sockets s) - 1)%nat.
Proof.
  intros (url & evs & H).
  cut (markers_inv s); [intros [? _]; lia|].
  refine (exec_ind markers_inv _ evs _ _ _ H).
  - intros. by eapply markers_inv_step.
  - split; simpl; [done|]. by intros [?|?].
Qed.

Lemma markers_bounded_witness :
  reachable (after lost_unread) ∧
  (markers ((delivered (after lost_unread)).*2 ++ queued (after lost_unread))
   ≤ length (sockets (after lost_unread)) - 1)%nat.
Proof.
  assert (Hs : reachable (after lost_unread)).
  { exists validator, lost_unread. vm_compute. reflexivity. }
  split; [exact Hs|]. exact (markers_bounded _ Hs).
Defined.


(** ** A call of receive that meets a disconnect event *)

(** Once [run] has been through the top of its loop, the event loop is
    there. *)
Lemma reachable_event_loop s :
  reachable s → pc s ≠ AtLoopTop ∨ first_time s = false →
  _event_loop s = true.
Proof.
  intros (url & evs & H).
  refine (exec_ind (λ s, pc s ≠ AtLoopTop ∨ first_time s = false →
                         _event_loop s = true) _ evs _ _ _ H).
  - intros e s1 s2 IH Hst. step_inv Hst; try done;
      intros _; apply IH; left; congruence.
  - simpl. by intros [?|?].
Qed.

(** With the thread of [run] blocked, the caller threads alone move, and
    they change nothing that the loop owns. *)
Lemma step_stuck e s s' :
  pc s = Stuck → _ready_event s = false → _send_queue s = None →
  step e s = Some s' →
  pc s' = Stuck ∧ _ready_event s' = false ∧ _send_queue s' = None ∧
  _sock s' = _sock s ∧ sockets s' = sockets s ∧ wire s' = wire s ∧
  delivered s' = delivered s ∧
  ∀ l f, heap s !! l = Some f → heap s' !! l = Some f.
Proof.
  intros Hpc Hre Hq H.
  step_inv H; try congruence; split_and!; try done.
  intros l f Hf. by apply lookup_app_l_Some.
Qed.

Lemma exec_cons e evs s s1 :
  step e s = Some s1 → exec s (e :: evs) = exec s1 evs.
Proof. intros H. simpl. by rewrite H. Qed.

Lemma monitor_disconnects_fields s :
  pc (_monitor_disconnects s) = Stopping ∧
  _ready_event (_monitor_disconnects s) = false ∧
  _send_queue (_monitor_disconnects s) = None ∧
  _recv_queue (_monitor_disconnects s) = None ∧
  _sock (_monitor_disconnects s) = None ∧
  callbacks (_monitor_disconnects s) = callbacks s.
Proof. unfold _monitor_disconnects. simpl. by destruct (_sock s). Qed.

(** X9: on a stream whose event loop is running with nothing handed to it,
    let a thread call [receive] and let the disconnect event be handled
    before the loop starts the [_get_message] of that call.  Started then,
    in the last turn of the loop, [_get_message] finds no receive queue and
    waits for one on the thread of the loop itself.  From there on, whatever
    the caller threads do, [run] does not go on: the event is never set
    again, no socket is opened, nothing is written or returned by
    [_get_message], and no future is given an outcome. *)
Theorem receive_meets_disconnect_blocks (s : State) (t : nat) :
  reachable s → pc s = InRunForever → callbacks s = [] →
  idle t s = true →
  ∃ s1,
    exec s (receive_meets_disconnect t) = Some s1 ∧ pc s1 = Stuck ∧
    ∀ evs s2,
      exec s1 evs = Some s2 →
      pc s2 = Stuck ∧ is_ready s2 = false ∧
      _sock s2 = None ∧ sockets s2 = sockets s1 ∧ wire s2 = wire s1 ∧
      delivered s2 = delivered s1 ∧
      ∀ l f, heap s1 !! l = Some f → heap s2 !! l = Some f.
Proof.
  intros Hreach Hpc Hcb Hi.
  pose proof (reachable_inv _ Hreach) as [_ Hr].
  unfold run_inv in Hr. rewrite Hpc in Hr. destruct Hr as (Ht & _).
  assert (_event_loop s = true) as Hl.
  { apply reachable_event_loop; [done|]. left. congruence. }
  set (sa := at_point t (Done ReturnHandle)
               (set_callbacks (callbacks s ++ [HGet t]) s)).
  destruct (monitor_disconnects_fields sa)
    as (Hp1 & Hre1 & Hsq1 & Hrq1 & Hk1 & Hcb1).
  set (s1 := set_pc Stuck (set_callbacks [] (_monitor_disconnects sa))).
  assert (H1 : step (Receive t) s = Some sa).
  { unfold step. rewrite Hi. unfold get_message. by rewrite Hl. }
  assert (H2 : step Disconnected sa = Some (_monitor_disconnects sa)).
  { unfold step, running.
    change (pc sa) with (pc s). change (tasks sa) with (tasks s).
    rewrite Hpc, Ht. reflexivity. }
  assert (H3 : step Callback (_monitor_disconnects sa) = Some s1).
  { unfold step. rewrite Hp1, Hcb1.
    change (callbacks sa) with (callbacks s ++ [HGet t]). rewrite Hcb.
    cbn [app]. rewrite bool_decide_eq_false_2 by done.
    rewrite bool_decide_eq_true_2 by done. cbn [orb].
    unfold _get_message.
    assert (Hq : ∀ c x, _recv_queue (set_callbacks c x) = _recv_queue x)
      by reflexivity.
    rewrite Hq, Hrq1. reflexivity. }
  assert (Hex : exec s (receive_meets_disconnect t) = Some s1).
  { unfold receive_meets_disconnect.
    rewrite (exec_cons _ _ _ _ H1), (exec_cons _ _ _ _ H2),
      (exec_cons _ _ _ _ H3). reflexivity. }
  exists s1. split; [exact Hex|]. split; [reflexivity|].
  intros evs s2 H.
  cut ((pc s2 = Stuck ∧ _ready_event s2 = false ∧ _send_queue s2 = None) ∧
       _sock s2 = None ∧ sockets s2 = sockets s1 ∧
       wire s2 = wire s1 ∧ delivered s2 = delivered s1 ∧
       ∀ l f, heap s1 !! l = Some f → heap s2 !! l = Some f).
  { intros ((? & ? & ?) & ?). unfold is_ready. tauto. }
  refine (exec_ind
            (λ s2, (pc s2 = Stuck ∧ _ready_event s2 = false ∧
                    _send_queue s2 = None) ∧
                   _sock s2 = None ∧ sockets s2 = sockets s1 ∧
                   wire s2 = wire s1 ∧ delivered s2 = delivered s1 ∧
                   ∀ l f, heap s1 !! l = Some f → heap s2 !! l = Some f)
            _ evs s1 s2 _ H).
  - intros e sb sc ((Hp & Hre & Hq) & Hk & Hss & Hw & Hd & Hh) Hst.
    destruct (step_stuck _ _ _ Hp Hre Hq Hst)
      as (? & ? & ? & ? & ? & ? & ? & Hh').
    split_and!; try done; try congruence.
    intros l f Hf. auto.
  - assert (Hfields : ∀ x,
              _ready_event (set_pc Stuck (set_callbacks [] x)) =
                _ready_event x ∧
              _send_queue (set_pc Stuck (set_callbacks [] x)) =
                _send_queue x ∧
              _sock (set_pc Stuck (set_callbacks [] x)) = _sock x)
      by (intros x; split_and!; reflexivity).
    destruct (Hfields (_monitor_disconnects sa)) as (E1 & E2 & E3).
    unfold s1. rewrite E1, E2, E3.
    split_and!; first [assumption | reflexivity | auto].
Qed.

Lemma receive_meets_disconnect_blocks_witness :
  let s := after (connect "3f0a9c51d27be846aa") in
  let t := 2%nat in
  reachable s ∧ pc s = InRunForever ∧ callbacks s = [] ∧
  idle t s = true ∧
  ∃ s1,
    exec s (receive_meets_disconnect t) = Some s1 ∧ pc s1 = Stuck ∧
    ∀ evs s2,
      exec s1 evs = Some s2 →
      pc s2 = Stuck ∧ is_ready s2 = false ∧
      _sock s2 = None ∧ sockets s2 = sockets s1 ∧ wire s2 = wire s1 ∧
      delivered s2 = delivered s1 ∧
      ∀ l f, heap s1 !! l = Some f → heap s2 !! l = Some f.
Proof.
  intros s t.
  assert (Hs : reachable s).
  { exists validator, (connect "3f0a9c51d27be846aa").
    vm_compute. reflexivity. }
  split; [exact Hs|]. split; [vm_compute; reflexivity|].
  split; [vm_compute; reflexivity|]. split; [vm_compute; reflexivity|].
  apply (receive_meets_disconnect_blocks s t Hs); vm_compute; reflexivity.
Defined.
(** ** Nothing twice *)

Lemma gather_snoc {A} (f : Event → State → list A) s evs e s1 s2 :
  exec s evs = Some s1 → step e s1 = Some s2 →
  gather f s (evs ++ [e]) = gather f s evs ++ f e s1.
Proof.
  revert s. induction evs as [|e0 evs IH]; intros s H Hs; simpl in *.
  - simplify_eq. rewrite Hs. by rewrite !app_nil_r.
  - destruct (step e0 s) as [s'|]; [|done].
    rewrite (IH _ H Hs). by rewrite app_assoc.
Qed.

Lemma pending_puts_app h1 h2 :
  pending_puts (h1 ++ h2) = pending_puts h1 ++ pending_puts h2.
Proof.
  induction h1 as [|[m|t] h1 IH]; simpl; [done| |done]. by rewrite IH.
Qed.

(** What is written, queued and waiting after a step is what was there
    before, in the same order and with nothing added but the message that
    the step hands over, which comes last. *)
Lemma step_in_flight e s s' :
  step e s = Some s' →
  sublist ((wire s').*2 ++ to_send s' ++ pending_puts (callbacks s'))
    (((wire s).*2 ++ to_send s ++ pending_puts (callbacks s)) ++
     handed_over e s).
Proof.
  intros H. unfold to_send, handed_over.
  step_inv H;
    repeat match goal with
           | H : _send_queue s = _ |- _ => rewrite H in *
           | H : callbacks s = _ |- _ => rewrite H in *
           | H : threads s !! _ = _ |- _ => rewrite H in *
           end; simpl;
    rewrite ?fmap_app, ?pending_puts_app, ?app_nil_r; simpl;
    rewrite <- ?app_assoc; simpl;
    try reflexivity;
    repeat first [ apply sublist_app; [reflexivity|]
                 | apply sublist_inserts_l; reflexivity
                 | apply sublist_cons; reflexivity
                 | reflexivity ].
Qed.

(** X10: in an execution of a stream, the messages written to the
    sockets, followed by those of the send queue, followed by those of the
    [_put_message]s handed to the loop and not yet started, are a
    subsequence of the messages that [put_message] has handed to the
    loop, in the order in which it handed them: no message is written
    that was not handed over, none is written more often than it was
    handed over, and the order is kept. *)
Theorem written_once (url : string) (evs : list Event) (s : State) :
  exec (init url) evs = Some s →
  sublist ((wire s).*2 ++ to_send s ++ pending_puts (callbacks s))
    (gather handed_over (init url) evs).
Proof.
  intros H.
  refine (exec_rev_ind
            (λ evs s,
               sublist
                 ((wire s).*2 ++ to_send s ++ pending_puts (callbacks s))
                 (gather handed_over (init url) evs))
            (init url) _ _ evs s H).
  - reflexivity.
  - intros evs0 e s0 s1 Hex IH Hst.
    rewrite (gather_snoc _ _ _ _ _ _ Hex Hst).
    etrans; [by apply step_in_flight|].
    by apply sublist_app.
Qed.

Lemma written_once_witness :
  let s := after failed_once in
  exec (init validator) failed_once = Some s ∧
  sublist ((wire s).*2 ++ to_send s ++ pending_puts (callbacks s))
    (gather handed_over (init validator) failed_once).
Proof.
  intros s.
  assert (H : exec (init validator) failed_once = Some s).
  { vm_compute. reflexivity. }
  split; [exact H|]. exact (written_once validator failed_once s H).
Defined.

Lemma count_app {A} (p : A → bool) (l1 l2 : list A) :
  count p (l1 ++ l2) = (count p l1 + count p l2)%nat.
Proof. induction l1 as [|x l1 IH]; simpl; [done|]. rewrite IH. lia. Qed.

Lemma read_of_app m l1 l2 :
  read_of m (l1 ++ l2) = (read_of m l1 + read_of m l2)%nat.
Proof. apply count_app. Qed.

Lemma resolved_by_app m h1 h2 :
  resolved_by m (h1 ++ h2) = (resolved_by m h1 + resolved_by m h2)%nat.
Proof. unfold resolved_by. apply sum_list_with_app. Qed.

(** One more outcome on one future of the heap: one more result of [m] at
    most, and none when the future was not made for the id of [m] or the
    outcome is not the result of [m]. *)
Lemma resolved_by_set_result m l o h :
  (resolved_by m (heap_set_result l o h) ≤ resolved_by m h + 1)%nat ∧
  ((∀ f, h !! l = Some f → fut_correlation_id f = correlation_id m →
         o ≠ FutureResult (message_type m) (content m)) →
   resolved_by m (heap_set_result l o h) = resolved_by m h).
Proof.
  unfold heap_set_result, resolved_by.
  revert l. induction h as [|f h IH]; intros [|l].
  - simpl. split; [lia|done].
  - simpl. split; [lia|done].
  - change (alter (set_result o) 0%nat (f :: h))
      with (set_result o f :: h).
    cbn [sum_list_with set_result resolutions fut_correlation_id].
    rewrite count_app. cbn [count].
    destruct (bool_decide (fut_correlation_id f = correlation_id m))
      eqn:Hc; [|split; [lia|done]].
    apply bool_decide_eq_true in Hc.
    destruct (bool_decide
                (o = FutureResult (message_type m) (content m))) eqn:Ho.
    + apply bool_decide_eq_true in Ho. split; [lia|].
      intros Hf. by destruct (Hf f).
    + split; [lia|]. intros _. lia.
  - change (alter (set_result o) (S l) (f :: h))
      with (f :: alter (set_result o) l h).
    cbn [sum_list_with]. destruct (IH l) as [IH1 IH2]. split; [lia|].
    intros Hf. rewrite IH2; [done|]. intros f0 ?. by apply Hf.
Qed.

Lemma resolved_by_fail_all m ls h :
  resolved_by m (fail_all ls h) = resolved_by m h.
Proof.
  revert h. induction ls as [|l ls IH]; intros h; [done|].
  unfold fail_all in *. simpl. rewrite IH.
  by apply resolved_by_set_result.
Qed.

(** A step reads or resolves with [m] once more at most, and only when it
    is the socket delivering [m]. *)
Lemma step_consumed m e s s' :
  keyed_inv s → step e s = Some s' →
  (read_of m ((delivered s').*2 ++ queued s') + resolved_by m (heap s')
   ≤ read_of m ((delivered s).*2 ++ queued s) + resolved_by m (heap s) +
     (if is_recv_of m e then 1 else 0))%nat.
Proof.
  intros (K1 & _ & _) H. unfold queued.
  step_inv H;
    repeat match goal with
           | H : _recv_queue s = _ |- _ => rewrite H in *
           end; simpl;
    rewrite ?fmap_app, ?read_of_app, ?resolved_by_app,
      ?resolved_by_fail_all; simpl;
    rewrite ?read_of_app; simpl;
    try lia.
  all: try (unfold read_of; cbn [count];
            repeat case_bool_decide; simplify_eq; lia).
  (* Recv, a response *)
  all: match goal with
       | |- context [heap_set_result ?n ?o ?h] =>
           pose proof (resolved_by_set_result m n o h) as [Hle Heq]
       end; try lia.
  rewrite Heq; [lia|].
  intros f Hf Hc Ho.
  match goal with H : _futures _ !! _ = Some _ |- _ =>
    destruct (K1 _ _ H) as (f0 & Hf0 & Hc0) end.
  case_bool_decide as Hm; [done|]. apply Hm.
  destruct message, m. simpl in *. by simplify_eq.
Qed.

(** X11: in an execution of a stream and for every message [m], the times
    that [m] has been returned to a caller of [receive] or is on the
    receive queue, together with the times that a future made for the id
    of [m] has been given the result of [m], are no more than the times
    that the socket has delivered [m]: a message of the validator
    resolves a future or is read from the queue, not both, and not more
    often than it came. *)
Theorem received_once (url : string) (evs : list Event) (s : State)
    (m : Message) :
  exec (init url) evs = Some s →
  (read_of m ((delivered s).*2 ++ queued s) + resolved_by m (heap s)
   ≤ count (is_recv_of m) evs)%nat.
Proof.
  intros H.
  cut (keyed_inv s ∧
       (read_of m ((delivered s).*2 ++ queued s) + resolved_by m (heap s)
        ≤ count (is_recv_of m) evs)%nat); [by intros [_ ?]|].
  refine (exec_rev_ind
            (λ evs s,
               keyed_inv s ∧
               (read_of m ((delivered s).*2 ++ queued s) +
                resolved_by m (heap s)
                ≤ count (is_recv_of m) evs)%nat)
            (init url) _ _ evs s H).
  - split; [apply reachable_keyed; by exists url, []|].
    unfold read_of, resolved_by. simpl. lia.
  - intros evs0 e s0 s1 _ [Hk IH] Hst. split.
    + by eapply keyed_inv_step.
    + pose proof (step_consumed m _ _ _ Hk Hst).
      rewrite count_app. simpl. lia.
Qed.

Lemma received_once_witness :
  let evs := connect "3f0a9c51d27be846aa" ++
             [Recv unsolicited; Receive 2; Callback] in
  let s := after evs in
  exec (init validator) evs = Some s ∧
  (read_of unsolicited ((delivered s).*2 ++ queued s) +
   resolved_by unsolicited (heap s)
   ≤ count (is_recv_of unsolicited) evs)%nat.
Proof.
  intros evs s.
  assert (H : exec (init validator) evs = Some s).
  { vm_compute. reflexivity. }
  split; [exact H|].
  exact (received_once validator evs s unsolicited H).
Defined.

(** ** After a disconnect event *)

Lemma exec_run_forever s :
  pc s = AtRunForever → exec s [RunForever] = Some (run_forever s).
Proof. intros E. simpl. by rewrite E. Qed.

Lemma exec_from_set_ready s :
  pc s = AtSetReady →
  exec s [SetReady; RunForever] = Some (run_forever (run_set_ready s)).
Proof.
  intros E. rewrite (exec_cons _ _ _ (run_set_ready s)).
  - by apply exec_run_forever.
  - simpl. by rewrite E.
Qed.

Lemma exec_from_ensure_future s :
  pc s = AtEnsureFuture →
  exec s [EnsureFuture; SetReady; RunForever] =
  Some (run_forever (run_set_ready (run_ensure_future s))).
Proof.
  intros E. rewrite (exec_cons _ _ _ (run_ensure_future s)).
  - by apply exec_from_set_ready.
  - simpl. by rewrite E.
Qed.

Lemma exec_from_queues s :
  pc s = AtQueues →
  exec s [Queues; EnsureFuture; SetReady; RunForever] =
  Some (run_forever (run_set_ready (run_ensure_future (run_queues s)))).
Proof.
  intros E. rewrite (exec_cons _ _ _ (run_queues s)).
  - by apply exec_from_ensure_future.
  - simpl. by rewrite E.
Qed.

Lemma exec_connect generated s :
  pc s = AtLoopTop →
  exec s (connect generated) =
  Some (run_forever (run_set_ready (run_ensure_future
          (run_queues (run_connect generated s))))).
Proof.
  intros E. unfold connect. rewrite (exec_cons _ _ _ (run_connect generated s)).
  - by apply exec_from_queues.
  - simpl. by rewrite E.
Qed.

Lemma exec_from_stopping generated s :
  pc s = Stopping →
  exec s (RunForeverReturns :: connect generated) =
  Some (run_forever (run_set_ready (run_ensure_future
          (run_queues (run_connect generated (run_forever_returns s)))))).
Proof.
  intros E. rewrite (exec_cons _ _ _ (run_forever_returns s)).
  - by apply exec_connect.
  - simpl. by rewrite E.
Qed.

(** X12: from every state of a stream in which the thread of [run] is not
    blocked, the steps of [run], with any generated id and with no other
    step in between (so that the loop starts no coroutine handed to it in
    its last turn), lead it back into the event loop: there the event is
    set, the socket is connected, the queues are there and the three
    coroutines, no more, are the tasks of the loop.  Nothing is needed from
    the caller threads, whose calls, futures and handed coroutines are as
    they were, and nothing is written meanwhile. *)
Theorem stream_recovers (s : State) (generated : string) :
  reachable s → pc s ≠ Stuck →
  forallb is_run (rest_of_pass generated (pc s)) = true ∧
  ∃ s',
    exec s (rest_of_pass generated (pc s)) = Some s' ∧
    pc s' = InRunForever ∧ is_ready s' = true ∧
    connected s' ∧ has_queues s' ∧ tasks s' = all_tasks ∧
    threads s' = threads s ∧ heap s' = heap s ∧ _futures s' = _futures s ∧
    callbacks s' = callbacks s ∧ wire s' = wire s.
Proof.
  intros Hreach Hpc.
  split; [by destruct (pc s)|].
  assert (∃ s', exec s (rest_of_pass generated (pc s)) = Some s' ∧
                pc s' = InRunForever ∧
                threads s' = threads s ∧ heap s' = heap s ∧
                _futures s' = _futures s ∧ callbacks s' = callbacks s ∧
                wire s' = wire s) as (s' & Hex & Hpc' & Hrest).
  { destruct (pc s) eqn:E; try done; cbn [rest_of_pass];
      eexists;
      (split;
       [first [ by apply exec_connect | by apply exec_from_queues
              | by apply exec_from_ensure_future
              | by apply exec_from_set_ready | by apply exec_run_forever
              | by apply exec_from_stopping | reflexivity ]|]);
      split_and!; first [reflexivity | exact E]. }
  exists s'. split; [done|]. split; [done|].
  pose proof (reachable_inv _ (reachable_exec _ _ _ Hreach Hex)) as [_ Hr].
  unfold run_inv in Hr. rewrite Hpc' in Hr.
  destruct Hr as (? & ? & ? & ?). destruct Hrest as (? & ? & ? & ? & ?).
  unfold is_ready. by split_and!.
Qed.

Lemma stream_recovers_witness :
  let s := after failed_once in
  reachable s ∧ pc s ≠ Stuck ∧
  forallb is_run (rest_of_pass "77b1e0c4f5a29d63bc" (pc s)) = true ∧
  ∃ s',
    exec s (rest_of_pass "77b1e0c4f5a29d63bc" (pc s)) = Some s' ∧
    pc s' = InRunForever ∧ is_ready s' = true ∧
    connected s' ∧ has_queues s' ∧ tasks s' = all_tasks ∧
    threads s' = threads s ∧ heap s' = heap s ∧ _futures s' = _futures s ∧
    callbacks s' = callbacks s ∧ wire s' = wire s.
Proof.
  intros s.
  assert (Hs : reachable s).
  { exists validator, failed_once. vm_compute. reflexivity. }
  assert (Hp : pc s ≠ Stuck).
  { vm_compute. discriminate. }
  split; [exact Hs|]. split; [exact Hp|].
  exact (stream_recovers s "77b1e0c4f5a29d63bc" Hs Hp).
Defined.
